(** * The ingestion queue processor (worker/src/queues/ingestionQueue.ts)

    A shallow embedding of [getS3StorageServiceClient] and
    [ingestionQueueProcessor].  The processor is written in a small
    state-and-exception monad: the state holds the module-level client cache,
    the clock and the chronological list of calls made to the external
    collaborators (logger, metrics, fragment store, merge component). *)

From Stdlib Require Import ZArith String Ascii DecimalString.
From stdpp Require Import base tactics option list strings.

Local Open Scope string_scope.

(** ** Thrown values and settled results *)

(** A JavaScript error object: [new Error(m)] has name ["Error"]. *)
Record Error := { name : string; message : string }.

Definition new_Error (m : string) : Error := {| name := "Error"; message := m |}.

(** The outcome of a call that may throw, or of a promise that has settled. *)
Inductive Result (A : Type) : Type :=
| Ok (value : A)
| Err (reason : Error).
Arguments Ok {A} value.
Arguments Err {A} reason.

(** What zod's [safeParse] returns. *)
Record ZodError := { zod_message : string }.

Inductive SafeParse (A : Type) : Type :=
| Success (data : A)
| Failure (error : ZodError).
Arguments Success {A} data.
Arguments Failure {A} error.

(** ** Configuration, job and client *)

(** The [env] fields the module reads; an unset variable is [None]. *)
Record Env := {
  LANGFUSE_S3_EVENT_UPLOAD_ENABLED : option string;
  LANGFUSE_S3_EVENT_UPLOAD_BUCKET : option string;
  LANGFUSE_S3_EVENT_UPLOAD_PREFIX : string;
  LANGFUSE_S3_EVENT_UPLOAD_ACCESS_KEY_ID : option string;
  LANGFUSE_S3_EVENT_UPLOAD_SECRET_ACCESS_KEY : option string;
  LANGFUSE_S3_EVENT_UPLOAD_ENDPOINT : option string;
  LANGFUSE_S3_EVENT_UPLOAD_REGION : option string;
  LANGFUSE_S3_EVENT_UPLOAD_FORCE_PATH_STYLE : option string
}.

(** The fields of the queue job the processor reads:
    [job.data.payload.authCheck.scope.projectId], [job.data.payload.data.type],
    [job.data.payload.data.eventBodyId] and [job.timestamp]. *)
Record Job := {
  projectId : string;
  type : string;
  eventBodyId : string;
  timestamp : Z
}.

(** An [S3StorageService] object.  [instance] is the identity of the object:
    the number of constructor calls made before it was built. *)
Record S3StorageService := {
  instance : nat;
  bucketName : string;
  accessKeyId : option string;
  secretAccessKey : option string;
  endpoint : option string;
  region : option string;
  forcePathStyle : bool
}.

(** ** String helpers *)

(** [s.split(sep)] for a one-character separator. *)
Fixpoint split (sep : ascii) (s : string) : list string :=
  match s with
  | EmptyString => [EmptyString]
  | String c s' =>
      if Ascii.eqb c sep then EmptyString :: split sep s'
      else match split sep s' with
           | [] => [String c EmptyString]
           | w :: ws => String c w :: ws
           end
  end.

(** [a.shift()]: the first element, [undefined] on an empty array. *)
Definition shift {A : Type} (a : list A) : option A := head a.

(** Truthiness of a possibly undefined string. *)
Definition truthy (v : option string) : bool :=
  match v with
  | None => false
  | Some EmptyString => false
  | Some _ => true
  end.

(** The decimal digits of an integer. *)
Definition decimal (z : Z) : string := NilZero.string_of_int (Z.to_int z).

(** The double nearest to a positive integer: 53 significant bits, ties to
    even. *)
Definition round_to_double (m : Z) : Z :=
  let bits := (Z.log2 m + 1)%Z in
  if (bits <=? 53)%Z then m
  else
    let shift := (bits - 53)%Z in
    let q := Z.shiftr m shift in
    let r := Z.land m (Z.ones shift) in
    let half := Z.shiftl 1 (shift - 1) in
    let q' := if (half <? r)%Z || ((r =? half)%Z && Z.odd q) then (q + 1)%Z else q in
    Z.shiftl q' shift.

(** The [s] of [k] digits for which [s * 10^(n-k)] is the double [m]: the
    two integers next to [m / 10^(n-k)] are tried. *)
Definition digit_candidates (m n k : Z) : list (Z * Z) :=
  if (n <? k)%Z then []
  else
    let p := (10 ^ (n - k))%Z in
    let lo := (m / p)%Z in
    List.filter
      (fun sn => let s := fst sn in
                 (10 ^ (k - 1) <=? s)%Z && (s <? 10 ^ k)%Z
                 && (round_to_double (s * p) =? m)%Z)
      [(lo, n); ((lo + 1)%Z, n)].

(** Of two candidates the one closer to [m], the even one on a tie. *)
Definition closer (m k : Z) (a b : Z * Z) : Z * Z :=
  let da := Z.abs (fst a * 10 ^ (snd a - k) - m) in
  let db := Z.abs (fst b * 10 ^ (snd b - k) - m) in
  if (da <? db)%Z then a
  else if (db <? da)%Z then b
  else if Z.even (fst a) then a else b.

Definition best (m k : Z) (l : list (Z * Z)) : option (Z * Z) :=
  match l with
  | [] => None
  | a :: l' => Some (List.fold_left (closer m k) l' a)
  end.

(** The fewest digits [k], with their [s] and [n], that give back the double
    [m] of [d] digits. *)
Fixpoint shortest (m d : Z) (ks : list Z) : option (Z * Z * Z) :=
  match ks with
  | [] => None
  | k :: ks' =>
      match best m k (digit_candidates m d k ++ digit_candidates m (d + 1) k) with
      | Some (s, n) => Some (s, n, k)
      | None => shortest m d ks'
      end
  end.

Definition zeros (n : Z) : string := String.concat "" (List.repeat "0" (Z.to_nat n)).

(** [Number::toString] on a positive double with an integer value: all the
    digits up to 21 of them, the exponent form from there. *)
Definition positive_to_string (m : Z) : string :=
  let d := Z.of_nat (String.length (decimal m)) in
  match shortest m d (List.map Z.of_nat (List.seq 1 17)) with
  | None => decimal m
  | Some (s, n, k) =>
      if (n <=? 21)%Z then decimal s ++ zeros (n - k)
      else
        match decimal s with
        | String first rest =>
            String first (if (k =? 1)%Z then "" else "." ++ rest)
            ++ "e+" ++ decimal (n - 1)
        | EmptyString => decimal m
        end
  end.

(** A number in a template literal: the integer as a JavaScript number,
    printed by [Number::toString]. *)
Definition number_to_string (z : Z) : string :=
  if (z =? 0)%Z then "0"
  else
    let m := round_to_double (Z.abs z) in
    let text := if (2 ^ 1024 <=? m)%Z then "Infinity" else positive_to_string m in
    if (z <? 0)%Z then "-" ++ text else text.

(** [hay.includes(needle)]. *)
Fixpoint includes (needle hay : string) : bool :=
  String.prefix needle hay ||
  match hay with
  | EmptyString => false
  | String _ hay' => includes needle hay'
  end.

(** ** Promise.all *)

Section PromiseAll.
Context {A : Type}.

(** The aggregate promise: one slot per input promise, the count of inputs
    not yet fulfilled, and the settled result once there is one. *)
Record AllState := {
  values : list (option A);
  remainingElements : nat;
  settled : option (Result (list A))
}.

Definition all_init (n : nat) : AllState :=
  {| values := replicate n None;
     remainingElements := n;
     settled := if Nat.eqb n 0 then Some (Ok []) else None |}.

(** All slots filled, read in index order. *)
Fixpoint read_slots (vs : list (option A)) : option (list A) :=
  match vs with
  | [] => Some []
  | None :: _ => None
  | Some v :: vs' =>
      match read_slots vs' with
      | Some l => Some (v :: l)
      | None => None
      end
  end.

(** Input promise [i] settles with its outcome [outs !! i].  A fulfilment
    stores the value in slot [i]; the last one resolves the aggregate with
    the slots.  A rejection rejects the aggregate.  An aggregate that has
    settled, and a promise that had settled before, ignore the call. *)
Definition settle_one (outs : list (Result A)) (st : AllState) (i : nat) : AllState :=
  match settled st with
  | Some _ => st
  | None =>
      match outs !! i, values st !! i with
      | Some (Ok v), Some None =>
          let values' := <[i := Some v]> (values st) in
          let remaining' := pred (remainingElements st) in
          {| values := values';
             remainingElements := remaining';
             settled := if Nat.eqb remaining' 0
                        then Ok <$> read_slots values'
                        else None |}
      | Some (Err e), Some None =>
          {| values := values st;
             remainingElements := remainingElements st;
             settled := Some (Err e) |}
      | _, _ => st
      end
  end.

(** [Promise.all] over promises with outcomes [outs] that settle in the
    order [completion]; [None] when the aggregate never settles. *)
Definition Promise_all (outs : list (Result A)) (completion : list nat)
  : option (Result (list A)) :=
  settled (foldl (settle_one outs) (all_init (length outs)) completion).
(** The number of empty slots. *)
Fixpoint pending (vs : list (option A)) : nat :=
  match vs with
  | [] => 0
  | None :: vs' => S (pending vs')
  | Some _ :: vs' => pending vs'
  end.

(** The invariant of the aggregate promise over the outcomes [outs]. *)
Record all_inv (outs : list (Result A)) (st : AllState) : Prop := {
  inv_length : length (values st) = length outs;
  inv_filled : forall j v, values st !! j = Some (Some v) -> outs !! j = Some (Ok v);
  inv_remaining : remainingElements st = pending (values st);
  inv_unsettled : settled st = None -> 0 < remainingElements st;
  inv_resolved : forall l, settled st = Some (Ok l) -> outs = Ok <$> l;
  inv_rejected : forall e, settled st = Some (Err e) -> exists j, outs !! j = Some (Err e)
}.
End PromiseAll.
Arguments AllState A : clear implicits.

(** Every input promise settles at some point of [completion]. *)
Definition all_complete (n : nat) (completion : list nat) : Prop :=
  forall i, i < n -> i ∈ completion.

(** How an asynchronous function ends: it returns, it throws, or it waits
    forever on a promise that never settles. *)
Inductive Outcome (A : Type) : Type :=
| Returned (a : A)
| Thrown (e : Error)
| Pending.
Arguments Returned {A} a.
Arguments Thrown {A} e.
Arguments Pending {A}.

(** ** The processor *)

Section Processor.
(** Parsed JSON content, validated events and the entity type tag come from
    the shared package. *)
Context {Json IngestionEventType ClickhouseEntityType : Type}.

(** Calls to the external collaborators, in the order they are made. *)
Inductive Effect : Type :=
| logger_info (msg : string) (project : string) (payload_type payload_eventBodyId : string)
| logger_warn (msg : string)
| logger_debug (msg : string)
| logger_error (msg : string) (e : Error)
| traceException (e : Error)
| recordIncrement (stat : string)
| recordHistogram (stat : string) (value : Z) (unit : string)
| recordGauge (stat : string) (value : Z) (unit : string)
| call_listFiles (client : S3StorageService) (prefix : string)
| call_download (client : S3StorageService) (key : string)
| call_mergeAndWrite (entityType : ClickhouseEntityType)
    (project body : string) (events : list IngestionEventType)
| call_count.

Definition is_mergeAndWrite (ev : Effect) : bool :=
  match ev with call_mergeAndWrite _ _ _ _ => true | _ => false end.

Definition is_listFiles (ev : Effect) : bool :=
  match ev with call_listFiles _ _ => true | _ => false end.

Definition is_recordIncrement (ev : Effect) : bool :=
  match ev with recordIncrement _ => true | _ => false end.

Definition is_download (ev : Effect) : bool :=
  match ev with call_download _ _ => true | _ => false end.

(** The number of calls of one kind among [tr]. *)
Definition calls (kind : Effect -> bool) (tr : list Effect) : nat :=
  length (List.filter kind tr).

(** The queue object, with the outcome of its [count()]. *)
Record IngestionQueue := { count : Result Z }.

(** The collaborators imported by the module, with the outcome of each
    call.  [completion] is the order in which the concurrent download
    operations of the attempt settle; [Date_now k] is the value of the
    [k]-th reading of the clock. *)
Record Externals := {
  env : Env;
  listFiles : S3StorageService -> string -> Result (list string);
  download : S3StorageService -> string -> Result string;
  completion : list nat;
  JSON_parse : string -> Result Json;
  ingestionBatchEvent_safeParse : Json -> SafeParse (list IngestionEventType);
  ingestionEvent_safeParse : Json -> SafeParse IngestionEventType;
  redis : bool;
  prisma : bool;
  getClickhouseEntityType : IngestionEventType -> Result ClickhouseEntityType;
  mergeAndWrite : ClickhouseEntityType -> string -> string ->
                  list IngestionEventType -> Result unit;
  IngestionQueue_getInstance : option IngestionQueue;
  Date_now : nat -> Z
}.

(** The module state ([let s3StorageServiceClient]), the number of
    [S3StorageService] objects constructed, the number of clock readings,
    and the calls made so far. *)
Record ProcState := {
  s3StorageServiceClient : option S3StorageService;
  constructed : nat;
  clock : nat;
  trace : list Effect
}.

Definition initial : ProcState :=
  {| s3StorageServiceClient := None; constructed := 0; clock := 0; trace := [] |}.

Definition M (A : Type) : Type := ProcState -> Outcome A * ProcState.

Definition ret {A} (a : A) : M A := fun s => (Returned a, s).
Definition throw {A} (e : Error) : M A := fun s => (Thrown e, s).
Definition bind {A B} (m : M A) (k : A -> M B) : M B :=
  fun s => match m s with
           | (Returned a, s') => k a s'
           | (Thrown e, s') => (Thrown e, s')
           | (Pending, s') => (Pending, s')
           end.

Notation "'let*' x := m 'in' k" := (bind m (fun x => k))
  (at level 10, x name, m at level 100, k at level 200,
   format "'[v' 'let*'  x  :=  m  'in' '/' k ']'").
Notation "'run' m 'in' k" := (bind m (fun _ => k))
  (at level 10, m at level 100, k at level 200,
   format "'[v' 'run'  m  'in' '/' k ']'").

(** [try { body } catch (e) { handler }]. *)
Definition try_catch {A} (body : M A) (handler : Error -> M A) : M A :=
  fun s => match body s with
           | (Thrown e, s') => handler e s'
           | r => r
           end.

Definition emit (ev : Effect) : M unit :=
  fun s => (Returned tt,
            {| s3StorageServiceClient := s3StorageServiceClient s;
               constructed := constructed s;
               clock := clock s;
               trace := trace s ++ [ev] |}).

(** [await p] for a promise whose outcome is known. *)
Definition await {A} (p : Result A) : M A :=
  match p with
  | Ok v => ret v
  | Err e => throw e
  end.

(** [await p] for a promise that may never settle. *)
Definition await_opt {A} (p : option (Result A)) : M A :=
  match p with
  | Some r => await r
  | None => fun s => (Pending, s)
  end.

(** [p.then(onFulfilled)]: a rejection of [p] passes through. *)
Definition promise_then {A B} (p : M A) (onFulfilled : A -> M B) : M B :=
  bind p onFulfilled.

(** [p.catch(onRejected)].  A handler that is not callable (here: absent)
    is replaced by one that rethrows, so [p.catch()] settles as [p]. *)
Definition promise_catch {A} (p : M A) (onRejected : option (Error -> M A)) : M A :=
  match onRejected with
  | Some handler => try_catch p handler
  | None => p
  end.

Variable ext : Externals.

Definition Date_now_read : M Z :=
  fun s => (Returned (Date_now ext (clock s)),
            {| s3StorageServiceClient := s3StorageServiceClient s;
               constructed := constructed s;
               clock := S (clock s);
               trace := trace s |}).

(** [new S3StorageService({...})]. *)
Definition new_S3StorageService (bucket : string) : M S3StorageService :=
  fun s => (Returned
              {| instance := constructed s;
                 bucketName := bucket;
                 accessKeyId := LANGFUSE_S3_EVENT_UPLOAD_ACCESS_KEY_ID (env ext);
                 secretAccessKey := LANGFUSE_S3_EVENT_UPLOAD_SECRET_ACCESS_KEY (env ext);
                 endpoint := LANGFUSE_S3_EVENT_UPLOAD_ENDPOINT (env ext);
                 region := LANGFUSE_S3_EVENT_UPLOAD_REGION (env ext);
                 forcePathStyle :=
                   bool_decide (LANGFUSE_S3_EVENT_UPLOAD_FORCE_PATH_STYLE (env ext)
                                = Some "true") |},
            {| s3StorageServiceClient := s3StorageServiceClient s;
               constructed := S (constructed s);
               clock := clock s;
               trace := trace s |}).

Definition set_s3StorageServiceClient (c : S3StorageService) : M unit :=
  fun s => (Returned tt,
            {| s3StorageServiceClient := Some c;
               constructed := constructed s;
               clock := clock s;
               trace := trace s |}).

Definition getS3StorageServiceClient (bucketName : string) : M S3StorageService :=
  fun s =>
    match s3StorageServiceClient s with
    | None =>
        (let* c := new_S3StorageService bucketName in
         run set_s3StorageServiceClient c in
         ret c) s
    | Some c => ret c s
    end.

(** The schema a [safeParse] call was made on. *)
Inductive Schema : Type := ingestionBatchEvent | ingestionEvent.

(** Lines 80-92: the validation of one parsed file, with the [safeParse]
    calls it makes. *)
Definition validate (parsedFile : Json)
  : list Schema * Result (list IngestionEventType) :=
  match ingestionBatchEvent_safeParse ext parsedFile with
  | Success data => ([ingestionBatchEvent], Ok data)
  | Failure _ =>
      match ingestionEvent_safeParse ext parsedFile with
      | Success data => ([ingestionBatchEvent; ingestionEvent], Ok [data])
      | Failure error =>
          ([ingestionBatchEvent; ingestionEvent],
           Err (new_Error ("Failed to parse event from S3: " ++ zod_message error)))
      end
  end.

(** Lines 76-93: the callback mapped over the listed keys, as the outcome
    of the promise it returns. *)
Definition fragment (s3Client : S3StorageService) (key : string)
  : Result (list IngestionEventType) :=
  match download ext s3Client key with
  | Err e => Err e
  | Ok file =>
      match JSON_parse ext file with
      | Err e => Err e
      | Ok parsedFile => snd (validate parsedFile)
      end
  end.

(** [eventFiles.map(async (key) => ...)] runs every callback up to its
    first [await]: the downloads are requested in listing order. *)
Fixpoint request_downloads (s3Client : S3StorageService) (keys : list string) : M unit :=
  match keys with
  | [] => ret tt
  | key :: keys' =>
      run emit (call_download s3Client key) in
      request_downloads s3Client keys'
  end.

(** The storage prefix of line 71. *)
Definition storage_prefix (job : Job) (eventName : string) : string :=
  LANGFUSE_S3_EVENT_UPLOAD_PREFIX (env ext) ++ projectId job ++ "/"
  ++ eventName ++ "/" ++ eventBodyId job ++ "/".

(** The condition of line 47. *)
Definition not_configured : bool :=
  negb (bool_decide (LANGFUSE_S3_EVENT_UPLOAD_ENABLED (env ext) = Some "true"))
  || negb (truthy (LANGFUSE_S3_EVENT_UPLOAD_BUCKET (env ext))).

Definition config_error : Error :=
  new_Error "S3 event store is not enabled but useS3EventStore is true".

(** Lines 45-72: the precondition checks, the client, the event name and
    the listing.  Returns [startTime], [s3Client] and [eventFiles].  Past the
    check of line 47 the bucket name is a non-empty string. *)
Definition listEventFiles (job : Job) : M (Z * S3StorageService * list string) :=
  let* startTime := Date_now_read in
  let* bucket :=
    (if not_configured
     then throw config_error
     else match LANGFUSE_S3_EVENT_UPLOAD_BUCKET (env ext) with
          | Some bucket => ret bucket
          | None => throw config_error
          end) in
  let* s3Client := getS3StorageServiceClient bucket in
  let* eventName :=
    match shift (split "-" (type job)) with
    | None | Some EmptyString => throw (new_Error "Event name not found")
    | Some eventName => ret eventName
    end in
  run emit (logger_info "Processing ingestion event" (projectId job)
              (type job) (eventBodyId job)) in
  let prefix := storage_prefix job eventName in
  run emit (call_listFiles s3Client prefix) in
  let* eventFiles := await (listFiles ext s3Client prefix) in
  ret (startTime, s3Client, eventFiles).

(** Lines 74-95: [(await Promise.all(eventFiles.map(...))).flat()]. *)
Definition downloadEvents (s3Client : S3StorageService) (eventFiles : list string)
  : M (list IngestionEventType) :=
  run request_downloads s3Client eventFiles in
  let* nested := await_opt (Promise_all (map (fragment s3Client) eventFiles)
                              (completion ext)) in
  ret (concat nested).

(** Lines 125-135: the queue length. *)
Definition logQueueSize : M unit :=
  match IngestionQueue_getInstance ext with
  | None => ret tt
  | Some queue =>
      run emit call_count in
      run promise_catch
            (promise_then (await (count queue))
               (fun count =>
                  run emit (logger_debug ("Ingestion queue length: "
                                          ++ number_to_string count)) in
                  run emit (recordGauge "langfuse.queue.ingestion.length" count
                              "records") in
                  ret count))
            None in
      ret tt
  end.

(** Lines 97-140: the empty case, the merge and the metrics. *)
Definition mergeEvents (job : Job) (startTime : Z) (events : list IngestionEventType)
  : M unit :=
  match events with
  | [] =>
      emit (logger_warn ("No events found for project " ++ projectId job
                         ++ " and event " ++ eventBodyId job))
  | first :: _ =>
      run (if redis ext then ret tt else throw (new_Error "Redis not available")) in
      run (if prisma ext then ret tt else throw (new_Error "Prisma not available")) in
      let* entityType := await (getClickhouseEntityType ext first) in
      run emit (call_mergeAndWrite entityType (projectId job) (eventBodyId job) events) in
      run await (mergeAndWrite ext entityType (projectId job) (eventBodyId job) events) in
      let* now := Date_now_read in
      let waitTime := (now - timestamp job)%Z in
      run emit (recordIncrement "langfuse.queue.ingestion.request") in
      run emit (recordHistogram "langfuse.queue.ingestion.wait_time" waitTime
                  "milliseconds") in
      run logQueueSize in
      let* now' := Date_now_read in
      emit (recordHistogram "langfuse.queue.ingestion.processing_time"
              (now' - startTime)%Z "milliseconds")
  end.

(** Lines 45-140, the body of the [try] block. *)
Definition ingestionQueueProcessor_try (job : Job) : M unit :=
  let* listed := listEventFiles job in
  let '(startTime, s3Client, eventFiles) := listed in
  let* events := downloadEvents s3Client eventFiles in
  mergeEvents job startTime events.

(** Lines 41-149. *)
Definition ingestionQueueProcessor (job : Job) : M unit :=
  try_catch (ingestionQueueProcessor_try job)
    (fun e =>
       run emit (logger_error ("Failed job ingestion processing for " ++ projectId job) e) in
       run emit (traceException e) in
       throw e).

(** What an attempt started in state [s] adds to the calls made so far. *)
Definition attempt_calls (job : Job) (s : ProcState) : list Effect :=
  drop (length (trace s)) (trace (snd (ingestionQueueProcessor job s))).

(** The externals with another completion order of the downloads. *)
Definition with_completion (order : list nat) : Externals :=
  {| env := env ext;
     listFiles := listFiles ext;
     download := download ext;
     completion := order;
     JSON_parse := JSON_parse ext;
     ingestionBatchEvent_safeParse := ingestionBatchEvent_safeParse ext;
     ingestionEvent_safeParse := ingestionEvent_safeParse ext;
     redis := redis ext;
     prisma := prisma ext;
     getClickhouseEntityType := getClickhouseEntityType ext;
     mergeAndWrite := mergeAndWrite ext;
     IngestionQueue_getInstance := IngestionQueue_getInstance ext;
     Date_now := Date_now ext |}.

(** Successive calls of the accessor, one per bucket name. *)
Fixpoint getS3StorageServiceClient_calls (bucketNames : list string)
  : M (list S3StorageService) :=
  match bucketNames with
  | [] => ret []
  | bucketName :: rest =>
      let* c := getS3StorageServiceClient bucketName in
      let* cs := getS3StorageServiceClient_calls rest in
      ret (c :: cs)
  end.

End Processor.

(** ** The ways through one attempt *)

Section Paths.
Context {Json IngestionEventType ClickhouseEntityType : Type}.
Variable ext : @Externals Json IngestionEventType ClickhouseEntityType.
Let State := @ProcState IngestionEventType ClickhouseEntityType.
Let Call := @Effect IngestionEventType ClickhouseEntityType.
Implicit Types (s : State) (job : Job) (tr : list Call).

(** The ways through lines 45-72, with the calls each one makes. *)
Inductive listEventFiles_path job s
  : Outcome (Z * S3StorageService * list string) -> list Call -> Prop :=
| path_not_configured :
    not_configured ext = true ->
    listEventFiles_path job s (Thrown config_error) []
| path_no_event_name :
    not_configured ext = false ->
    shift (split "-" (type job)) = None \/ shift (split "-" (type job)) = Some "" ->
    listEventFiles_path job s (Thrown (new_Error "Event name not found")) []
| path_listed eventName s3Client :
    not_configured ext = false ->
    shift (split "-" (type job)) = Some eventName ->
    eventName <> "" ->
    listEventFiles_path job s
      match listFiles ext s3Client (storage_prefix ext job eventName) with
      | Ok eventFiles => Returned (Date_now ext (clock s), s3Client, eventFiles)
      | Err e => Thrown e
      end
      [logger_info "Processing ingestion event" (projectId job) (type job)
         (eventBodyId job);
       call_listFiles s3Client (storage_prefix ext job eventName)].

(** The ways through lines 97-140, with the calls each one makes. *)
Inductive mergeEvents_path job (startTime : Z) s (events : list IngestionEventType)
  : Outcome unit -> list Call -> Prop :=
| path_no_events :
    events = [] ->
    mergeEvents_path job startTime s events (Returned tt)
      [logger_warn ("No events found for project " ++ projectId job
                    ++ " and event " ++ eventBodyId job)]
| path_no_redis first rest :
    events = first :: rest ->
    redis ext = false ->
    mergeEvents_path job startTime s events
      (Thrown (new_Error "Redis not available")) []
| path_no_prisma first rest :
    events = first :: rest ->
    redis ext = true -> prisma ext = false ->
    mergeEvents_path job startTime s events
      (Thrown (new_Error "Prisma not available")) []
| path_entity_type_thrown first rest e :
    events = first :: rest ->
    redis ext = true -> prisma ext = true ->
    getClickhouseEntityType ext first = Err e ->
    mergeEvents_path job startTime s events (Thrown e) []
| path_merge_thrown first rest entityType e :
    events = first :: rest ->
    redis ext = true -> prisma ext = true ->
    getClickhouseEntityType ext first = Ok entityType ->
    mergeAndWrite ext entityType (projectId job) (eventBodyId job) events = Err e ->
    mergeEvents_path job startTime s events (Thrown e)
      [call_mergeAndWrite entityType (projectId job) (eventBodyId job) events]
| path_merged first rest entityType :
    events = first :: rest ->
    redis ext = true -> prisma ext = true ->
    getClickhouseEntityType ext first = Ok entityType ->
    mergeAndWrite ext entityType (projectId job) (eventBodyId job) events = Ok tt ->
    IngestionQueue_getInstance ext = None ->
    mergeEvents_path job startTime s events (Returned tt)
      [call_mergeAndWrite entityType (projectId job) (eventBodyId job) events;
       recordIncrement "langfuse.queue.ingestion.request";
       recordHistogram "langfuse.queue.ingestion.wait_time"
         (Date_now ext (clock s) - timestamp job) "milliseconds";
       recordHistogram "langfuse.queue.ingestion.processing_time"
         (Date_now ext (S (clock s)) - startTime) "milliseconds"]
| path_merged_counted first rest entityType count :
    events = first :: rest ->
    redis ext = true -> prisma ext = true ->
    getClickhouseEntityType ext first = Ok entityType ->
    mergeAndWrite ext entityType (projectId job) (eventBodyId job) events = Ok tt ->
    IngestionQueue_getInstance ext = Some {| count := Ok count |} ->
    mergeEvents_path job startTime s events (Returned tt)
      [call_mergeAndWrite entityType (projectId job) (eventBodyId job) events;
       recordIncrement "langfuse.queue.ingestion.request";
       recordHistogram "langfuse.queue.ingestion.wait_time"
         (Date_now ext (clock s) - timestamp job) "milliseconds";
       call_count;
       logger_debug ("Ingestion queue length: " ++ number_to_string count);
       recordGauge "langfuse.queue.ingestion.length" count "records";
       recordHistogram "langfuse.queue.ingestion.processing_time"
         (Date_now ext (S (clock s)) - startTime) "milliseconds"]
| path_count_rejected first rest entityType e :
    events = first :: rest ->
    redis ext = true -> prisma ext = true ->
    getClickhouseEntityType ext first = Ok entityType ->
    mergeAndWrite ext entityType (projectId job) (eventBodyId job) events = Ok tt ->
    IngestionQueue_getInstance ext = Some {| count := Err e |} ->
    mergeEvents_path job startTime s events (Thrown e)
      [call_mergeAndWrite entityType (projectId job) (eventBodyId job) events;
       recordIncrement "langfuse.queue.ingestion.request";
       recordHistogram "langfuse.queue.ingestion.wait_time"
         (Date_now ext (clock s) - timestamp job) "milliseconds";
       call_count].

(** The ways through the [try] block. *)
Inductive try_path job s : Outcome unit -> list Call -> Prop :=
| try_not_listed e s1 tr :
    listEventFiles ext job s = (Thrown e, s1) ->
    listEventFiles_path job s (Thrown e) tr ->
    try_path job s (Thrown e) tr
| try_download_rejected startTime s3Client eventFiles s1 tr e :
    listEventFiles ext job s = (Returned (startTime, s3Client, eventFiles), s1) ->
    listEventFiles_path job s (Returned (startTime, s3Client, eventFiles)) tr ->
    Promise_all (map (fragment ext s3Client) eventFiles) (completion ext)
      = Some (Err e) ->
    try_path job s (Thrown e) (tr ++ map (call_download s3Client) eventFiles)
| try_download_pending startTime s3Client eventFiles s1 tr :
    listEventFiles ext job s = (Returned (startTime, s3Client, eventFiles), s1) ->
    listEventFiles_path job s (Returned (startTime, s3Client, eventFiles)) tr ->
    Promise_all (map (fragment ext s3Client) eventFiles) (completion ext) = None ->
    try_path job s Pending (tr ++ map (call_download s3Client) eventFiles)
| try_assembled startTime s3Client eventFiles s1 tr nested s2 out tr' :
    listEventFiles ext job s = (Returned (startTime, s3Client, eventFiles), s1) ->
    listEventFiles_path job s (Returned (startTime, s3Client, eventFiles)) tr ->
    Promise_all (map (fragment ext s3Client) eventFiles) (completion ext)
      = Some (Ok nested) ->
    downloadEvents ext s3Client eventFiles s1 = (Returned (concat nested), s2) ->
    mergeEvents_path job startTime s2 (concat nested) out tr' ->
    try_path job s out (tr ++ map (call_download s3Client) eventFiles ++ tr').

(** The calls of the [catch] block. *)
Definition catch_calls job (out : Outcome unit) : list Call :=
  match out with
  | Thrown e =>
      [logger_error ("Failed job ingestion processing for " ++ projectId job) e;
       traceException e]
  | _ => []
  end.

(** A computation keeps the cached client [c]: started with [c] in the
    cache it constructs nothing and leaves [c] there. *)
Definition keeps_client {A} (c : S3StorageService) (m : M A) : Prop :=
  forall s, s3StorageServiceClient s = Some c ->
            s3StorageServiceClient (snd (m s)) = Some c /\
            constructed (snd (m s)) = constructed s.


(** More kinds of calls. *)
Definition is_logger_error (ev : Call) : bool :=
  match ev with logger_error _ _ => true | _ => false end.

Definition is_traceException (ev : Call) : bool :=
  match ev with traceException _ => true | _ => false end.

(** The metrics calls and the queue length read of lines 119-140. *)
Definition is_telemetry (ev : Call) : bool :=
  match ev with
  | recordIncrement _ | recordHistogram _ _ _ | recordGauge _ _ _ | call_count
  | logger_debug _ => true
  | _ => false
  end.

(** The calls of lines 45-72 when the checks pass. *)
Definition listing_calls job (s3Client : S3StorageService) (eventName : string)
  : list Call :=
  [logger_info "Processing ingestion event" (projectId job) (type job) (eventBodyId job);
   call_listFiles s3Client (storage_prefix ext job eventName)].

(** The client the accessor hands out in state [s] for [bucket]. *)
Definition client_in s (bucket : string) : S3StorageService :=
  match s3StorageServiceClient s with
  | Some c => c
  | None =>
      {| instance := constructed s;
         bucketName := bucket;
         accessKeyId := LANGFUSE_S3_EVENT_UPLOAD_ACCESS_KEY_ID (env ext);
         secretAccessKey := LANGFUSE_S3_EVENT_UPLOAD_SECRET_ACCESS_KEY (env ext);
         endpoint := LANGFUSE_S3_EVENT_UPLOAD_ENDPOINT (env ext);
         region := LANGFUSE_S3_EVENT_UPLOAD_REGION (env ext);
         forcePathStyle :=
           bool_decide (LANGFUSE_S3_EVENT_UPLOAD_FORCE_PATH_STYLE (env ext)
                        = Some "true") |}
  end.

End Paths.

(** ** A concrete deployment *)

Module Scenario.
(** Parsed content is kept as text, an event is its id, an entity type its
    name. *)
Definition env0 : Env :=
  {| LANGFUSE_S3_EVENT_UPLOAD_ENABLED := Some "true";
     LANGFUSE_S3_EVENT_UPLOAD_BUCKET := Some "events";
     LANGFUSE_S3_EVENT_UPLOAD_PREFIX := "";
     LANGFUSE_S3_EVENT_UPLOAD_ACCESS_KEY_ID := None;
     LANGFUSE_S3_EVENT_UPLOAD_SECRET_ACCESS_KEY := None;
     LANGFUSE_S3_EVENT_UPLOAD_ENDPOINT := None;
     LANGFUSE_S3_EVENT_UPLOAD_REGION := None;
     LANGFUSE_S3_EVENT_UPLOAD_FORCE_PATH_STYLE := None |}.

Definition job0 : Job :=
  {| projectId := "p1"; type := "trace-create"; eventBodyId := "b1"; timestamp := 1000 |}.

Definition keys0 : list string := ["p1/trace/b1/A"; "p1/trace/b1/B"].

(** Fragment A holds the single event [t1], fragment B the array
    [[t2, t3]], fragment X the object [{"unexpected":"shape"}]. *)
Definition download0 (_ : S3StorageService) (key : string) : Result string :=
  if String.eqb key "p1/trace/b1/A" then Ok "t1"
  else if String.eqb key "p1/trace/b1/B" then Ok "[t2,t3]"
  else if String.eqb key "p1/trace/b1/X" then Ok "{unexpected}"
  else Err {| name := "NoSuchKey"; message := "The specified key does not exist." |}.

Definition batch0 (parsedFile : string) : SafeParse (list string) :=
  if String.eqb parsedFile "[t2,t3]" then Success ["t2"; "t3"]
  else Failure {| zod_message := "Expected array" |}.

Definition single0 (parsedFile : string) : SafeParse string :=
  if String.eqb parsedFile "t1" then Success "t1"
  else Failure {| zod_message := "Required" |}.

Definition world (keys : list string) (order : list nat) (queue : option IngestionQueue)
  : @Externals string string string :=
  {| env := env0;
     listFiles := fun _ _ => Ok keys;
     download := download0;
     completion := order;
     JSON_parse := fun file => Ok file;
     ingestionBatchEvent_safeParse := batch0;
     ingestionEvent_safeParse := single0;
     redis := true;
     prisma := true;
     getClickhouseEntityType := fun _ => Ok "trace";
     mergeAndWrite := fun _ _ _ _ => Ok tt;
     IngestionQueue_getInstance := queue;
     Date_now := fun k => (1500 + 10 * Z.of_nat k)%Z |}.

Definition depth_error : Error :=
  {| name := "Error"; message := "Connection is closed." |}.

(** The client the first attempt of the process constructs. *)
Definition client0 : S3StorageService :=
  {| instance := 0; bucketName := "events"; accessKeyId := None;
     secretAccessKey := None; endpoint := None; region := None;
     forcePathStyle := false |}.

(** Fragments A and B are listed; B completes first; the queue has 7 jobs. *)
Definition two_fragments := world keys0 [1; 0] (Some {| count := Ok 7%Z |}).

(** The same, with a queue whose length cannot be read. *)
Definition count_rejected := world keys0 [0; 1] (Some {| count := Err depth_error |}).

(** No fragment is listed. *)
Definition no_fragments := world [] [] None.

(** Fragments A and X are listed. *)
Definition invalid_fragment := world ["p1/trace/b1/A"; "p1/trace/b1/X"] [0; 1] None.

(** Only fragment X is listed. *)
Definition only_invalid := world ["p1/trace/b1/X"] [0] None.

(** A job whose type tag starts with the dash. *)
Definition job_no_name : Job :=
  {| projectId := "p1"; type := "-create"; eventBodyId := "b1"; timestamp := 1000 |}.
End Scenario.

(** Variations of the deployment. *)
Module Variants.
Import Scenario.

Definition deployment (e : Env) (listing : Result (list string)) (order : list nat)
           (redisOk prismaOk : bool) (merge : Result unit)
           (queue : option IngestionQueue)
  : @Externals string string string :=
  {| env := e;
     listFiles := fun _ _ => listing;
     download := download0;
     completion := order;
     JSON_parse := fun file => Ok file;
     ingestionBatchEvent_safeParse := batch0;
     ingestionEvent_safeParse := single0;
     redis := redisOk;
     prisma := prismaOk;
     getClickhouseEntityType := fun _ => Ok "trace";
     mergeAndWrite := fun _ _ _ _ => merge;
     IngestionQueue_getInstance := queue;
     Date_now := fun k => (1500 + 10 * Z.of_nat k)%Z |}.

(** The feature flag is off. *)
Definition env_disabled : Env :=
  {| LANGFUSE_S3_EVENT_UPLOAD_ENABLED := Some "false";
     LANGFUSE_S3_EVENT_UPLOAD_BUCKET := Some "events";
     LANGFUSE_S3_EVENT_UPLOAD_PREFIX := "";
     LANGFUSE_S3_EVENT_UPLOAD_ACCESS_KEY_ID := None;
     LANGFUSE_S3_EVENT_UPLOAD_SECRET_ACCESS_KEY := None;
     LANGFUSE_S3_EVENT_UPLOAD_ENDPOINT := None;
     LANGFUSE_S3_EVENT_UPLOAD_REGION := None;
     LANGFUSE_S3_EVENT_UPLOAD_FORCE_PATH_STYLE := None |}.

Definition disabled := deployment env_disabled (Ok keys0) [0; 1] true true (Ok tt) None.

Definition access_denied : Error := {| name := "AccessDenied"; message := "Access Denied" |}.

(** The listing is refused. *)
Definition listing_refused :=
  deployment env0 (Err access_denied) [] true true (Ok tt) None.

(** Fragments A and B are listed; the download of B never completes. *)
Definition download_stalls := deployment env0 (Ok keys0) [0] true true (Ok tt) None.

(** Fragments A, Z and B are listed; Z does not exist and its download is the
    first to complete; the download of B never completes. *)
Definition missing_first :=
  deployment env0 (Ok ["p1/trace/b1/A"; "p1/trace/b1/Z"; "p1/trace/b1/B"]) [1; 0]
    true true (Ok tt) None.


(** Fragments A, X and B are listed; only the operation on X completes. *)
Definition only_invalid_completes :=
  deployment env0 (Ok ["p1/trace/b1/A"; "p1/trace/b1/X"; "p1/trace/b1/B"]) [1]
    true true (Ok tt) None.

(** Fragments Z and X are listed; Z does not exist and its download is the
    first to complete. *)
Definition missing_then_invalid :=
  deployment env0 (Ok ["p1/trace/b1/Z"; "p1/trace/b1/X"]) [0; 1] true true (Ok tt) None.


(** Redis is not available. *)
Definition without_redis := deployment env0 (Ok keys0) [0; 1] false false (Ok tt) None.

(** A job of another type with the same prefix before the dash. *)
Definition job_update : Job :=
  {| projectId := "p1"; type := "trace-update"; eventBodyId := "b1"; timestamp := 1200 |}.
End Variants.

(** ** Promise.all settles in index order *)

Section PromiseAllFacts.
Context {A : Type}.
Implicit Types (vs : list (option A)) (outs : list (Result A)) (st : AllState A).

Lemma pending_replicate n : pending (replicate n (@None A)) = n.
Proof. induction n as [|n IH]; simpl; [reflexivity | now rewrite IH]. Qed.

Lemma pending_insert vs i v :
  vs !! i = Some None -> pending (<[i := Some v]> vs) = pred (pending vs).
Proof.
  revert i. induction vs as [|x vs IH]; intros [|i] H; simpl in *; try discriminate.
  - injection H as ->. reflexivity.
  - destruct x as [a|]; simpl.
    + now apply IH.
    + rewrite (IH i H). destruct vs as [|y vs']; [destruct i; discriminate|].
      clear IH. assert (0 < pending (y :: vs')) as Hpos.
      { clear -H. revert H. generalize (y :: vs'). intros l. revert i.
        induction l as [|z l IHl]; intros [|i] H; simpl in *; try discriminate.
        - injection H as ->. lia.
        - destruct z; [now apply (IHl i) | lia]. }
      lia.
Qed.

Lemma read_slots_Some vs l : read_slots vs = Some l -> vs = Some <$> l.
Proof.
  revert l. induction vs as [|[a|] vs IH]; intros l H; simpl in H.
  - now injection H as <-.
  - destruct (read_slots vs) as [l'|]; [|discriminate].
    injection H as <-. simpl. f_equal. now apply IH.
  - discriminate.
Qed.

Lemma pending_0_read vs : pending vs = 0 -> exists l, read_slots vs = Some l.
Proof.
  induction vs as [|[a|] vs IH]; simpl; intros H.
  - now exists [].
  - destruct (IH H) as [l ->]. now exists (a :: l).
  - discriminate.
Qed.

Lemma filled_pending_0 vs :
  (forall i, i < length vs -> exists v, vs !! i = Some (Some v)) -> pending vs = 0.
Proof.
  induction vs as [|x vs IH]; intros H; [reflexivity|].
  destruct (H 0) as [v Hv]; [simpl; lia|]. simpl in Hv. injection Hv as ->. simpl.
  apply IH. intros i Hi. apply (H (S i)). simpl. lia.
Qed.

Lemma resolved_outcomes outs vs l :
  length vs = length outs ->
  (forall j v, vs !! j = Some (Some v) -> outs !! j = Some (Ok v)) ->
  vs = Some <$> l ->
  outs = Ok <$> l.
Proof.
  intros Hlen Hfill ->. apply list_eq. intros j.
  rewrite length_fmap in Hlen. rewrite list_lookup_fmap.
  destruct (l !! j) as [v|] eqn:Hj; simpl.
  - apply Hfill. now rewrite list_lookup_fmap, Hj.
  - apply lookup_ge_None. apply lookup_ge_None in Hj. lia.
Qed.

Lemma all_init_inv outs : all_inv outs (all_init (length outs)).
Proof.
  split; simpl.
  - apply length_replicate.
  - intros j v H. apply lookup_replicate in H as [H _]. discriminate.
  - now rewrite pending_replicate.
  - destruct outs; simpl; [discriminate | lia].
  - destruct outs; simpl; intros l H; [|discriminate].
    now injection H as <-.
  - destruct outs; simpl; intros e H; discriminate.
Qed.

Lemma settle_one_inv outs st i : all_inv outs st -> all_inv outs (settle_one outs st i).
Proof.
  intros Hinv. unfold settle_one.
  destruct (settled st) as [r|] eqn:Hs; [assumption|].
  destruct (outs !! i) as [[v|e]|] eqn:Ho; [| |assumption];
    destruct (values st !! i) as [[w|]|] eqn:Hv; try assumption.
  - assert (length (<[i:=Some v]> (values st)) = length outs) as Hlen
      by (rewrite length_insert; apply Hinv).
    assert (forall j u, <[i:=Some v]> (values st) !! j = Some (Some u) ->
                        outs !! j = Some (Ok u)) as Hfill.
    { intros j u Hj. destruct (decide (i = j)) as [<-|Hne].
      - rewrite list_lookup_insert_eq in Hj by (now apply lookup_lt_Some in Hv).
        congruence.
      - rewrite list_lookup_insert_ne in Hj by assumption. now apply Hinv. }
    assert (pred (remainingElements st) = pending (<[i:=Some v]> (values st))) as Hrem
      by (rewrite pending_insert by assumption; f_equal; apply Hinv).
    split; simpl; try assumption.
    + destruct (Nat.eqb_spec (pred (remainingElements st)) 0) as [Hz|Hnz]; [|lia].
      rewrite Hz in Hrem. symmetry in Hrem.
      destruct (pending_0_read _ Hrem) as [l ->]. discriminate.
    + intros l. destruct (Nat.eqb (pred (remainingElements st)) 0); [|discriminate].
      destruct (read_slots (<[i:=Some v]> (values st))) as [l'|] eqn:Hr; [|discriminate].
      simpl. intros [= <-]. eapply resolved_outcomes; eauto using read_slots_Some.
    + intros e. destruct (Nat.eqb (pred (remainingElements st)) 0); [|discriminate].
      destruct (read_slots (<[i:=Some v]> (values st))); discriminate.
  - split; simpl; try apply Hinv.
    + discriminate.
    + discriminate.
    + intros e' [= <-]. eauto.
Qed.

Lemma foldl_settle_inv outs order st :
  all_inv outs st -> all_inv outs (foldl (settle_one outs) st order).
Proof.
  revert st. induction order as [|i order IH]; intros st H; simpl; [assumption|].
  apply IH. now apply settle_one_inv.
Qed.

Lemma settled_stays outs order st r :
  settled st = Some r -> foldl (settle_one outs) st order = st.
Proof.
  intros H. induction order as [|i order IH]; simpl; [reflexivity|].
  unfold settle_one at 2. now rewrite H.
Qed.

Lemma filled_one outs st i j v :
  values st !! j = Some (Some v) -> values (settle_one outs st i) !! j = Some (Some v).
Proof.
  intros H. unfold settle_one.
  destruct (settled st); [assumption|].
  destruct (outs !! i) as [[w|e]|]; [| |assumption];
    destruct (values st !! i) as [[u|]|] eqn:Hv; try assumption.
  simpl. rewrite list_lookup_insert_ne; [assumption | congruence].
Qed.

Lemma filled_stays outs order st j v :
  values st !! j = Some (Some v) ->
  values (foldl (settle_one outs) st order) !! j = Some (Some v).
Proof.
  revert st. induction order as [|i order IH]; intros st H; simpl; [assumption|].
  apply IH. now apply filled_one.
Qed.

(** While the aggregate is unsettled, every promise that has completed has
    its slot filled. *)
Lemma unsettled_filled outs order st i :
  length (values st) = length outs ->
  settled (foldl (settle_one outs) st order) = None ->
  i ∈ order -> i < length outs ->
  exists v, values (foldl (settle_one outs) st order) !! i = Some (Some v).
Proof.
  revert st. induction order as [|k order IH]; intros st Hlen Hun Hin Hi.
  - now apply elem_of_nil in Hin.
  - simpl in *. apply elem_of_cons in Hin as [->|Hin].
    + destruct (settled (settle_one outs st k)) as [r|] eqn:Hs1.
      { rewrite (settled_stays _ _ _ _ Hs1) in Hun. congruence. }
      assert (exists v, values (settle_one outs st k) !! k = Some (Some v)) as [v Hv].
      { revert Hs1. unfold settle_one.
        destruct (settled st) eqn:Hst; [intros; congruence|].
        destruct (lookup_lt_is_Some_2 outs k Hi) as [o Ho]. rewrite Ho.
        destruct (lookup_lt_is_Some_2 (values st) k) as [w Hw]; [lia|]. rewrite Hw.
        destruct o as [v|e], w as [u|]; simpl; intros Hs1; try discriminate; eauto.
        exists v. apply list_lookup_insert_eq. now apply lookup_lt_Some in Hw. }
      exists v. now apply filled_stays.
    + apply IH; try assumption.
      unfold settle_one. destruct (settled st); [assumption|].
      destruct (outs !! k) as [[w|e]|]; [| |assumption];
        destruct (values st !! k) as [[u|]|]; try assumption.
      simpl. now rewrite length_insert.
Qed.

(** When every input promise completes, the aggregate settles. *)
Lemma Promise_all_settles outs order :
  all_complete (length outs) order ->
  exists r, Promise_all outs order = Some r.
Proof.
  intros Hall. unfold Promise_all.
  pose proof (foldl_settle_inv outs order _ (all_init_inv outs)) as Hinv.
  destruct (settled (foldl (settle_one outs) (all_init (length outs)) order))
    as [r|] eqn:Hs; [eauto|].
  exfalso. pose proof (inv_unsettled _ _ Hinv Hs) as Hpos.
  rewrite (inv_remaining _ _ Hinv) in Hpos.
  rewrite filled_pending_0 in Hpos; [lia|].
  intros i Hi. rewrite (inv_length _ _ Hinv) in Hi.
  apply unsettled_filled; auto.
  simpl. apply length_replicate.
Qed.

(** A resolved aggregate holds the values in index order. *)
Lemma Promise_all_Ok outs order l :
  Promise_all outs order = Some (Ok l) -> outs = Ok <$> l.
Proof.
  unfold Promise_all. intros H.
  exact (inv_resolved _ _ (foldl_settle_inv outs order _ (all_init_inv outs)) l H).
Qed.

(** A rejected aggregate carries the reason of one of its inputs. *)
Lemma Promise_all_Err outs order e :
  Promise_all outs order = Some (Err e) -> exists j, outs !! j = Some (Err e).
Proof.
  unfold Promise_all. intros H.
  exact (inv_rejected _ _ (foldl_settle_inv outs order _ (all_init_inv outs)) e H).
Qed.

Lemma fmap_Ok_inj (l l' : list A) : Ok <$> l = Ok <$> l' -> l = l'.
Proof.
  revert l'. induction l as [|x l IH]; intros [|y l'] H; simpl in H;
    try discriminate; [reflexivity|].
  injection H as -> H. f_equal. now apply IH.
Qed.

Lemma Promise_all_fulfilled (l : list A) order :
  all_complete (length l) order ->
  Promise_all (Ok <$> l) order = Some (Ok l).
Proof.
  intros Hall.
  destruct (Promise_all_settles (Ok <$> l) order) as [[l'|e] Hr].
  - now rewrite length_fmap.
  - rewrite Hr. do 2 f_equal. apply Promise_all_Ok in Hr.
    symmetry. now apply fmap_Ok_inj.
  - apply Promise_all_Err in Hr as [j Hj].
    rewrite list_lookup_fmap in Hj. destruct (l !! j); discriminate.
Qed.

Lemma Promise_all_rejected outs order i e0 :
  outs !! i = Some (Err e0) ->
  all_complete (length outs) order ->
  exists e j, Promise_all outs order = Some (Err e) /\ outs !! j = Some (Err e).
Proof.
  intros Hi Hall.
  destruct (Promise_all_settles outs order Hall) as [[l|e] Hr].
  - apply Promise_all_Ok in Hr. subst outs.
    rewrite list_lookup_fmap in Hi. destruct (l !! i); discriminate.
  - destruct (Promise_all_Err _ _ _ Hr) as [j Hj]. eauto.
Qed.

(** Once a rejected input has completed, the aggregate is rejected, with
    the reason of one of its inputs, whatever the other inputs do. *)
Lemma Promise_all_rejected_once_completed outs order i e0 :
  outs !! i = Some (Err e0) ->
  i ∈ order ->
  exists e j, Promise_all outs order = Some (Err e) /\ outs !! j = Some (Err e).
Proof.
  intros Hi Hin. unfold Promise_all.
  pose proof (foldl_settle_inv outs order _ (all_init_inv outs)) as Hinv.
  destruct (settled (foldl (settle_one outs) (all_init (length outs)) order))
    as [[l|e]|] eqn:Hs.
  - apply (inv_resolved _ _ Hinv) in Hs. subst outs.
    rewrite list_lookup_fmap in Hi. destruct (l !! i); discriminate.
  - destruct (inv_rejected _ _ Hinv e Hs) as [j Hj]. eauto.
  - exfalso.
    destruct (unsettled_filled outs order (all_init (length outs)) i) as [v Hv];
      try assumption.
    + simpl. apply length_replicate.
    + now apply lookup_lt_Some in Hi.
    + apply (inv_filled _ _ Hinv) in Hv. congruence.
Qed.

(** An aggregate with a rejected input is never resolved. *)
Lemma Promise_all_not_resolved outs order i e0 l :
  outs !! i = Some (Err e0) -> Promise_all outs order <> Some (Ok l).
Proof.
  intros Hi Hall. apply Promise_all_Ok in Hall. subst outs.
  rewrite list_lookup_fmap in Hi. destruct (l !! i); discriminate.
Qed.

Lemma Promise_all_nil order : Promise_all (@nil (Result A)) order = Some (Ok []).
Proof.
  unfold Promise_all. simpl length.
  now rewrite (settled_stays [] order (all_init 0) (Ok [])).
Qed.
End PromiseAllFacts.

(** ** The stages of one attempt *)

Section Stages.
Context {Json IngestionEventType ClickhouseEntityType : Type}.
Variable ext : @Externals Json IngestionEventType ClickhouseEntityType.
Let State := @ProcState IngestionEventType ClickhouseEntityType.
Let Call := @Effect IngestionEventType ClickhouseEntityType.
Implicit Types (s : State) (job : Job) (tr : list Call).

Lemma bind_Returned {A B} (m : M A) (k : A -> M B) s a s' :
  m s = (Returned a, s') -> bind m k s = k a s'.
Proof. unfold bind. now intros ->. Qed.

Lemma bind_Thrown {A B} (m : M A) (k : A -> M B) s e s' :
  m s = (Thrown e, s') -> bind m k s = (Thrown e, s').
Proof. unfold bind. now intros ->. Qed.

Lemma bind_Pending {A B} (m : M A) (k : A -> M B) s s' :
  m s = (Pending, s') -> bind m k s = (Pending, s').
Proof. unfold bind. now intros ->. Qed.

Lemma bind_emit {B} (ev : Call) (k : unit -> M B) s :
  bind (emit ev) k s =
  k tt {| s3StorageServiceClient := s3StorageServiceClient s;
          constructed := constructed s;
          clock := clock s;
          trace := trace s ++ [ev] |}.
Proof. reflexivity. Qed.

(** The accessor returns; it leaves the clock and the calls alone. *)
Lemma getS3StorageServiceClient_returns bucketName s :
  exists c s0,
    getS3StorageServiceClient ext bucketName s = (Returned c, s0) /\
    trace s0 = trace s /\ clock s0 = clock s.
Proof.
  unfold getS3StorageServiceClient.
  destruct (s3StorageServiceClient s); eexists _, _; (split; [reflexivity|]); auto.
Qed.

Lemma listEventFiles_run job s :
  exists out s1 tr,
    listEventFiles ext job s = (out, s1) /\
    trace s1 = (trace s ++ tr)%list /\
    listEventFiles_path ext job s out tr.
Proof.
  unfold listEventFiles. erewrite bind_Returned by reflexivity.
  destruct (not_configured ext) eqn:Hcfg.
  { eexists _, _, []. split; [reflexivity|]. split; [simpl; now rewrite app_nil_r|].
    now constructor. }
  destruct (LANGFUSE_S3_EVENT_UPLOAD_BUCKET (env ext)) as [bucket|] eqn:Hb;
    [|unfold not_configured in Hcfg; rewrite Hb in Hcfg; simpl in Hcfg;
      now rewrite orb_true_r in Hcfg].
  erewrite bind_Returned by reflexivity.
  edestruct (getS3StorageServiceClient_returns bucket) as (c & s0 & Hget & Ht & Hc).
  erewrite bind_Returned by exact Hget. simpl in Ht.
  destruct (shift (split "-" (type job))) as [[|a name]|] eqn:Hname.
  - eexists _, _, []. split; [reflexivity|]. split; [now rewrite app_nil_r|].
    constructor; auto.
  - pose proof (path_listed ext job s (String a name) c Hcfg Hname) as Hpath.
    erewrite bind_Returned by reflexivity. rewrite !bind_emit.
    
    destruct (listFiles ext c (storage_prefix ext job (String a name))) as [keys|e];
      simpl; eexists _, _, _; (split; [reflexivity|]); simpl;
      (split; [rewrite Ht, <- app_assoc; reflexivity|]); now apply Hpath.
  - eexists _, _, []. split; [reflexivity|]. split; [now rewrite app_nil_r|].
    constructor; auto.
Qed.

Lemma request_downloads_run s3Client keys s :
  request_downloads s3Client keys s =
  (Returned tt,
   {| s3StorageServiceClient := s3StorageServiceClient s;
      constructed := constructed s;
      clock := clock s;
      trace := trace s ++ map (call_download s3Client) keys |}).
Proof.
  revert s. induction keys as [|key keys IH]; intros s; simpl.
  - unfold ret. rewrite app_nil_r. now destruct s.
  - rewrite bind_emit, IH. simpl. now rewrite <- app_assoc.
Qed.

(** Lines 74-95 request every download, then end as [Promise.all] settles. *)
Lemma downloadEvents_run s3Client eventFiles s :
  downloadEvents ext s3Client eventFiles s =
  (match Promise_all (map (fragment ext s3Client) eventFiles) (completion ext) with
   | Some (Ok nested) => Returned (concat nested)
   | Some (Err e) => Thrown e
   | None => Pending
   end,
   {| s3StorageServiceClient := s3StorageServiceClient s;
      constructed := constructed s;
      clock := clock s;
      trace := trace s ++ map (call_download s3Client) eventFiles |}).
Proof.
  unfold downloadEvents.
  erewrite bind_Returned by apply request_downloads_run.
  destruct (Promise_all _ _) as [[nested|e]|]; reflexivity.
Qed.

Lemma mergeEvents_run job startTime events s :
  exists out s1 tr,
    mergeEvents ext job startTime events s = (out, s1) /\
    trace s1 = (trace s ++ tr)%list /\
    mergeEvents_path ext job startTime s events out tr.
Proof.
  destruct events as [|first rest].
  { eexists _, _, _. split; [reflexivity|]. split; [reflexivity|]. now constructor. }
  unfold mergeEvents. remember (first :: rest) as events eqn:Hev.
  destruct (redis ext) eqn:Hredis.
  2:{ eexists _, _, []. split; [reflexivity|]. split; [now rewrite app_nil_r|].
      eapply path_no_redis; eauto. }
  erewrite bind_Returned by reflexivity.
  destruct (prisma ext) eqn:Hprisma.
  2:{ eexists _, _, []. split; [reflexivity|]. split; [now rewrite app_nil_r|].
      eapply path_no_prisma; eauto. }
  erewrite bind_Returned by reflexivity.
  destruct (getClickhouseEntityType ext first) as [entityType|e] eqn:Hentity.
  2:{ eexists _, _, []. split; [reflexivity|]. split; [now rewrite app_nil_r|].
      eapply path_entity_type_thrown; eauto. }
  erewrite bind_Returned by reflexivity. rewrite bind_emit.
  destruct (mergeAndWrite ext entityType (projectId job) (eventBodyId job) events)
    as [[]|e] eqn:Hmerge.
  2:{ eexists _, _, _. split; [reflexivity|]. split; [reflexivity|].
      eapply path_merge_thrown; eauto. }
  erewrite bind_Returned by reflexivity.
  erewrite bind_Returned by reflexivity. rewrite !bind_emit.
  unfold logQueueSize.
  destruct (IngestionQueue_getInstance ext) as [[[count|e]]|] eqn:Hqueue.
  - eexists _, _, _. split; [reflexivity|]. simpl.
    split; [rewrite <- !app_assoc; reflexivity|].
    eapply path_merged_counted; eauto.
  - eexists _, _, _. split; [reflexivity|]. simpl.
    split; [rewrite <- !app_assoc; reflexivity|].
    eapply path_count_rejected; eauto.
  - eexists _, _, _. split; [reflexivity|]. simpl.
    split; [rewrite <- !app_assoc; reflexivity|].
    eapply path_merged; eauto.
Qed.

Lemma listEventFiles_not_Pending job s tr :
  ~ listEventFiles_path ext job s Pending tr.
Proof.
  intros H. inversion H as [| |name c Hcfg Hname Hne Hout]; subst.
  destruct (listFiles ext c (storage_prefix ext job name)); discriminate.
Qed.

Lemma try_run job s :
  exists out s1 tr,
    ingestionQueueProcessor_try ext job s = (out, s1) /\
    trace s1 = (trace s ++ tr)%list /\
    try_path ext job s out tr.
Proof.
  unfold ingestionQueueProcessor_try.
  destruct (listEventFiles_run job s) as (out & s1 & tr & Hrun & Htr & Hpath).
  destruct out as [[[startTime s3Client] eventFiles]|e|].
  - erewrite bind_Returned by exact Hrun.
    pose proof (downloadEvents_run s3Client eventFiles s1) as Hdl.
    destruct (Promise_all _ _) as [[nested|e]|] eqn:Hall.
    + erewrite bind_Returned by exact Hdl.
      edestruct (mergeEvents_run job startTime (concat nested)) as
        (out & s2 & tr' & -> & Htr' & Hpath').
      eexists _, _, _. split; [reflexivity|]. split; [|eapply try_assembled; eauto].
      rewrite Htr'. simpl. now rewrite Htr, <- !app_assoc.
    + erewrite bind_Thrown by exact Hdl.
      eexists _, _, _. split; [reflexivity|]. split; [|eapply try_download_rejected; eauto].
      simpl. now rewrite Htr, <- !app_assoc.
    + erewrite bind_Pending by exact Hdl.
      eexists _, _, _. split; [reflexivity|]. split; [|eapply try_download_pending; eauto].
      simpl. now rewrite Htr, <- !app_assoc.
  - erewrite bind_Thrown by exact Hrun.
    eexists _, _, _. split; [reflexivity|]. split; [exact Htr|].
    eapply try_not_listed; eauto.
  - now apply listEventFiles_not_Pending in Hpath.
Qed.

Lemma ingestionQueueProcessor_run job s :
  exists out s1 tr,
    ingestionQueueProcessor_try ext job s = (out, s1) /\
    trace s1 = (trace s ++ tr)%list /\
    try_path ext job s out tr /\
    fst (ingestionQueueProcessor ext job s) = out /\
    attempt_calls ext job s = (tr ++ catch_calls job out)%list /\
    trace (snd (ingestionQueueProcessor ext job s))
      = (trace s ++ attempt_calls ext job s)%list.
Proof.
  destruct (try_run job s) as (out & s1 & tr & Hrun & Htr & Hpath).
  exists out, s1, tr. do 3 (split; [assumption|]).
  unfold attempt_calls, ingestionQueueProcessor, try_catch. rewrite Hrun.
  destruct out as [[]|e|]; simpl; rewrite ?Htr, <- ?app_assoc, ?drop_app_length;
    simpl; rewrite ?app_nil_r; auto.
Qed.

(** *** Counting and finding calls *)

Lemma calls_app kind tr tr' : calls kind (tr ++ tr') = calls kind tr + calls kind tr'.
Proof. unfold calls. now rewrite List.filter_app, length_app. Qed.

Lemma no_merge_in_downloads s3Client keys :
  calls is_mergeAndWrite (map (call_download s3Client) keys : list Call) = 0.
Proof. unfold calls. induction keys; simpl; auto. Qed.

Lemma no_recordIncrement_in_downloads s3Client keys :
  calls is_recordIncrement (map (call_download s3Client) keys : list Call) = 0.
Proof. unfold calls. induction keys; simpl; auto. Qed.

Lemma no_listFiles_in_downloads s3Client keys :
  calls is_listFiles (map (call_download s3Client) keys : list Call) = 0.
Proof. unfold calls. induction keys; simpl; auto. Qed.

Lemma elem_of_downloads (ev : Call) s3Client keys :
  ev ∈ map (call_download s3Client) keys -> exists key, ev = call_download s3Client key.
Proof.
  intros H. apply list_elem_of_In, in_map_iff in H as (key & <- & _). eauto.
Qed.
End Stages.

Ltac find_call :=
  repeat match goal with
    | H : _ ∈ [] |- _ => apply elem_of_nil in H; destruct H
    | H : _ ∈ _ :: _ |- _ => apply elem_of_cons in H as [H|H]
    | H : _ ∈ (_ ++ _)%list |- _ => apply elem_of_app in H as [H|H]
    | H : _ ∈ map (call_download _) _ |- _ => apply elem_of_downloads in H as [? H]
    | H : _ ∈ catch_calls _ ?out |- _ => destruct out; simpl in H
    | H : call_mergeAndWrite _ _ _ _ = _ |- _ => first [discriminate H | injection H as -> -> -> ->]
    | H : call_listFiles _ _ = _ |- _ => first [discriminate H | injection H as -> ->]
    | H : call_download _ _ = _ |- _ => first [discriminate H | injection H as -> ->]
    | H : recordIncrement _ = _ |- _ => first [discriminate H | injection H as ->]
    | H : logger_warn _ = _ |- _ => first [discriminate H | injection H as ->]
    end.

(** ** The client accessor *)

Section Accessor.
Context {Json IngestionEventType ClickhouseEntityType : Type}.
Variable ext : @Externals Json IngestionEventType ClickhouseEntityType.
Let State := @ProcState IngestionEventType ClickhouseEntityType.
Let Proc := @M IngestionEventType ClickhouseEntityType.
Implicit Types (s : State).

Lemma cached_client_returned bucketNames s c :
  s3StorageServiceClient s = Some c ->
  getS3StorageServiceClient_calls ext bucketNames s
  = (Returned (replicate (length bucketNames) c), s).
Proof.
  intros Hc. induction bucketNames as [|b bs IH]; simpl; [reflexivity|].
  erewrite bind_Returned
    by (unfold getS3StorageServiceClient; rewrite Hc; reflexivity).
  erewrite bind_Returned by exact IH. reflexivity.
Qed.

Lemma first_call_constructs bucketName0 s :
  s3StorageServiceClient s = None ->
  exists c s',
    getS3StorageServiceClient ext bucketName0 s = (Returned c, s') /\
    bucketName c = bucketName0 /\
    instance c = constructed s /\
    constructed s' = S (constructed s) /\
    s3StorageServiceClient s' = Some c.
Proof.
  intros Hnone. unfold getS3StorageServiceClient. rewrite Hnone.
  eexists _, _. split; [reflexivity|]. simpl. auto.
Qed.

Lemma keeps_ret {A} c (a : A) : keeps_client c (ret a : Proc _).
Proof. intros s Hc. auto. Qed.

Lemma keeps_throw {A} c e : keeps_client c (throw e : Proc A).
Proof. intros s Hc. auto. Qed.

Lemma keeps_emit c ev : keeps_client c (emit ev : Proc _).
Proof. intros s Hc. auto. Qed.

Lemma keeps_await {A} c (p : Result A) :
  keeps_client c (await p : Proc _).
Proof. destruct p; [apply keeps_ret | apply keeps_throw]. Qed.

Lemma keeps_await_opt {A} c (p : option (Result A)) :
  keeps_client c (await_opt p : Proc _).
Proof. destruct p; [apply keeps_await|]. intros s Hc. auto. Qed.

Lemma keeps_Date_now_read c : keeps_client c (Date_now_read ext).
Proof. intros s Hc. auto. Qed.

Lemma keeps_bind {A B} c (m : Proc A) (k : A -> Proc B) :
  keeps_client c m -> (forall a, keeps_client c (k a)) -> keeps_client c (bind m k).
Proof.
  intros Hm Hk s Hc. unfold bind. specialize (Hm s Hc).
  destruct (m s) as [[a|e|] s']; simpl in *; try assumption.
  destruct Hm as [Hc' Hn]. rewrite <- Hn. now apply Hk.
Qed.

Lemma keeps_try_catch {A} c (m : Proc A) (h : Error -> Proc A) :
  keeps_client c m -> (forall e, keeps_client c (h e)) -> keeps_client c (try_catch m h).
Proof.
  intros Hm Hh s Hc. unfold try_catch. specialize (Hm s Hc).
  destruct (m s) as [[a|e|] s']; simpl in *; try assumption.
  destruct Hm as [Hc' Hn]. rewrite <- Hn. now apply Hh.
Qed.

Lemma keeps_getS3StorageServiceClient c bucketName :
  keeps_client c (getS3StorageServiceClient ext bucketName).
Proof. intros s Hc. unfold getS3StorageServiceClient. rewrite Hc. auto. Qed.

Lemma keeps_request_downloads c s3Client keys :
  keeps_client c (request_downloads s3Client keys : Proc _).
Proof.
  induction keys as [|key keys IH]; simpl; [apply keeps_ret|].
  apply keeps_bind; [apply keeps_emit | intros _; exact IH].
Qed.

Ltac keeps :=
  repeat first
    [ apply keeps_ret | apply keeps_throw | apply keeps_emit | apply keeps_await
    | apply keeps_await_opt | apply keeps_Date_now_read
    | apply keeps_getS3StorageServiceClient | apply keeps_request_downloads
    | apply keeps_bind | apply keeps_try_catch
    | match goal with
      | |- forall _, _ => intro
      | |- keeps_client _ (if ?b then _ else _) => destruct b
      | |- keeps_client _ (match ?x with _ => _ end) => destruct x
      end ].

(** An attempt keeps the cached client. *)
Lemma ingestionQueueProcessor_keeps_client c job :
  keeps_client c (ingestionQueueProcessor ext job).
Proof.
  unfold ingestionQueueProcessor, ingestionQueueProcessor_try, listEventFiles,
    downloadEvents, mergeEvents, logQueueSize, promise_catch, promise_then.
  keeps.
Qed.

(** C10: starting with an empty cache, the first call of the accessor
    constructs a client for its own bucket name, and this is the only
    construction: every later call, whatever bucket name it passes, returns
    that same object and leaves the module state as it is, and the attempts
    run in between keep the object in the cache and construct nothing. *)
Theorem C10_client_constructed_once bucketName0 bucketNames s :
  s3StorageServiceClient s = None ->
  exists c s',
    getS3StorageServiceClient_calls ext (bucketName0 :: bucketNames) s
    = (Returned (c :: replicate (length bucketNames) c), s') /\
    bucketName c = bucketName0 /\
    instance c = constructed s /\
    constructed s' = S (constructed s) /\
    s3StorageServiceClient s' = Some c /\
    (forall bucketNames', getS3StorageServiceClient_calls ext bucketNames' s'
                          = (Returned (replicate (length bucketNames') c), s')) /\
    (forall job s'', s3StorageServiceClient s'' = Some c ->
       s3StorageServiceClient (snd (ingestionQueueProcessor ext job s'')) = Some c /\
       constructed (snd (ingestionQueueProcessor ext job s'')) = constructed s'' /\
       forall bucketNames',
         getS3StorageServiceClient_calls ext bucketNames'
           (snd (ingestionQueueProcessor ext job s''))
         = (Returned (replicate (length bucketNames') c),
            snd (ingestionQueueProcessor ext job s''))).
Proof.
  intros Hnone.
  destruct (first_call_constructs bucketName0 s Hnone)
    as (c & s' & Hfirst & Hb & Hi & Hn & Hc).
  exists c, s'.
  assert (forall bs, getS3StorageServiceClient_calls ext bs s'
                     = (Returned (replicate (length bs) c), s')) as Hlater
    by (intros bs; now apply cached_client_returned).
  split.
  { cbn [getS3StorageServiceClient_calls].
    erewrite bind_Returned by exact Hfirst.
    erewrite bind_Returned by apply Hlater. reflexivity. }
  do 5 (split; [assumption|]).
  intros job s'' Hc''.
  destruct (ingestionQueueProcessor_keeps_client c job s'' Hc'') as [Hkept Hsame].
  repeat split; try assumption.
  intros bs. now apply cached_client_returned.
Qed.
End Accessor.

(** In the scenario, a second call for another bucket gets the client of the
    first call. *)
Lemma C10_witness :
  exists c s',
    getS3StorageServiceClient_calls Scenario.no_fragments ["events"; "other"] initial
    = (Returned [c; c], s') /\ bucketName c = "events" /\ constructed s' = 1.
Proof.
  destruct (C10_client_constructed_once Scenario.no_fragments "events" ["other"]
              initial eq_refl) as (c & s' & Hrun & Hb & _ & Hn & _).
  exists c, s'. auto.
Defined.

(** ** The event name *)

Ltac show_call :=
  repeat (rewrite elem_of_app || rewrite elem_of_cons); eauto 20.

Lemma split_first (ty : string) :
  exists p ws,
    split "-" ty = p :: ws /\
    (forall c, In c (list_ascii_of_string p) -> c <> "-"%char) /\
    (ws = [] /\ ty = p \/ exists rest, ws <> [] /\ ty = p ++ "-" ++ rest).
Proof.
  induction ty as [|c ty (p & ws & Hs & Hp & Hty)]; simpl.
  - exists "", []. split; [reflexivity|]. split; [intros c []|]. now left.
  - destruct (Ascii.eqb_spec c "-"%char) as [->|Hc].
    + rewrite Hs. exists "", (p :: ws). split; [reflexivity|]. split; [intros c []|].
      right. exists ty. split; [discriminate | reflexivity].
    + rewrite Hs. exists (String c p), ws. split; [reflexivity|]. split.
      * intros c' [<-|Hin]; [assumption | now apply Hp].
      * destruct Hty as [[-> ->]|(rest & Hne & ->)]; [now left|].
        right. exists rest. split; [assumption | reflexivity].
Qed.

Section EventName.
Context {Json IngestionEventType ClickhouseEntityType : Type}.
Variable ext : @Externals Json IngestionEventType ClickhouseEntityType.
Let State := @ProcState IngestionEventType ClickhouseEntityType.
Implicit Types (s : State) (job : Job).

(** C7: [type.split("-").shift()] is the part of the type tag before its
    first dash (the whole tag when it has none), and this is the event name
    of the storage prefix that is listed: on a configured deployment an
    attempt with a non-empty event name makes exactly one [listFiles] call,
    with the prefix built from that name.  When the event name is empty the
    attempt throws without listing or downloading anything, and the error
    thrown is "Event name not found" when the store is configured. *)
Theorem C7_event_name_before_first_dash job s :
  exists p,
    shift (split "-" (type job)) = Some p /\
    (forall c, In c (list_ascii_of_string p) -> c <> "-"%char) /\
    (type job = p \/ exists rest, type job = p ++ "-" ++ rest) /\
    (forall s3Client prefix,
       call_listFiles s3Client prefix ∈ attempt_calls ext job s ->
       prefix = storage_prefix ext job p) /\
    (p = "" ->
     (exists e, fst (ingestionQueueProcessor ext job s) = Thrown e) /\
     calls is_listFiles (attempt_calls ext job s) = 0 /\
     calls is_download (attempt_calls ext job s) = 0 /\
     (not_configured ext = false ->
      fst (ingestionQueueProcessor ext job s)
      = Thrown (new_Error "Event name not found"))) /\
    (p <> "" -> not_configured ext = false ->
     calls is_listFiles (attempt_calls ext job s) = 1 /\
     exists s3Client,
       call_listFiles s3Client (storage_prefix ext job p) ∈ attempt_calls ext job s).
Proof.
  destruct (split_first (type job)) as (p & ws & Hs & Hp & Hty).
  exists p. assert (shift (split "-" (type job)) = Some p) as Hshift
    by (now rewrite Hs).
  split; [assumption|]. split; [assumption|].
  split; [destruct Hty as [[_ ?]|(rest & _ & ?)]; eauto|].
  destruct (ingestionQueueProcessor_run ext job s)
    as (out & s1 & tr & Hrun & Htr & Hpath & Hout & Hcalls & _).
  rewrite Hout, Hcalls. clear Hrun Htr Hout Hcalls. split; [|split].
  - intros c prefix Hin.
    destruct Hpath as [e s1' tr Hl Hpath|? c' ? ? tr e Hl Hpath|? c' ? ? tr Hl Hpath
                      |? c' ? ? tr ? ? out tr' Hl Hpath Hall Hdl Hmerge].
    4: destruct Hmerge.
    all: inversion Hpath; subst; find_call; simpl in *; find_call; congruence.
  - intros ->.
    destruct Hpath as [e s1' tr Hl Hpath|? c' ? ? tr e Hl Hpath|? c' ? ? tr Hl Hpath
                      |? c' ? ? tr ? ? out tr' Hl Hpath Hall Hdl Hmerge].
    all: inversion Hpath; subst; try congruence.
    + repeat split; eauto. intros Hcfg. unfold not_configured in *. congruence.
    + repeat split; eauto.
  - intros Hne Hcfg.
    destruct Hpath as [e s1' tr Hl Hpath|? c' ? ? tr e Hl Hpath|? c' ? ? tr Hl Hpath
                      |? c' ? ? tr ? ? out tr' Hl Hpath Hall Hdl Hmerge].
    4: destruct Hmerge.
    all: inversion Hpath; subst; try congruence.
    all: try match goal with
             | H : _ \/ _ |- _ => destruct H; congruence
             end.
    all: match goal with
         | H : shift _ = Some ?name |- _ => assert (name = p) as -> by congruence
         end.
    all: split;
      [rewrite ?calls_app, ?no_listFiles_in_downloads; reflexivity
      |eexists; simpl; show_call].
Qed.
End EventName.

(** ** Validation and assembly *)

Section Assembly.
Context {Json IngestionEventType ClickhouseEntityType : Type}.
Variable ext : @Externals Json IngestionEventType ClickhouseEntityType.
Let State := @ProcState IngestionEventType ClickhouseEntityType.
Let Call := @Effect IngestionEventType ClickhouseEntityType.
Implicit Types (s : State) (job : Job).

(** C3: a downloaded and parsed fragment is validated as a batch first.
    When that succeeds with the records [records], no other validation is
    made and the fragment contributes exactly [records], in their order.
    Only when it fails is the single-event validation made; when that one
    succeeds with [event], the fragment contributes exactly [[event]]. *)
Theorem C3_batch_first_then_single s3Client key file parsedFile :
  download ext s3Client key = Ok file ->
  JSON_parse ext file = Ok parsedFile ->
  match ingestionBatchEvent_safeParse ext parsedFile with
  | Success records =>
      fst (validate ext parsedFile) = [ingestionBatchEvent] /\
      fragment ext s3Client key = Ok records
  | Failure _ =>
      fst (validate ext parsedFile) = [ingestionBatchEvent; ingestionEvent] /\
      match ingestionEvent_safeParse ext parsedFile with
      | Success event => fragment ext s3Client key = Ok [event]
      | Failure _ => exists e, fragment ext s3Client key = Err e
      end
  end.
Proof.
  intros Hfile Hparsed. unfold fragment, validate. rewrite Hfile, Hparsed.
  destruct (ingestionBatchEvent_safeParse ext parsedFile) as [records|err]; simpl.
  - split; reflexivity.
  - destruct (ingestionEvent_safeParse ext parsedFile) as [event|err']; simpl;
      split; eauto.
Qed.

Lemma contributions_outcomes s3Client eventFiles
      (contributions : list (list IngestionEventType)) :
  Forall2 (fun key events => fragment ext s3Client key = Ok events)
    eventFiles contributions ->
  map (fragment ext s3Client) eventFiles = Ok <$> contributions.
Proof.
  induction 1 as [|key events keys rest Hk _ IH]; simpl; [reflexivity|].
  now rewrite Hk, IH.
Qed.

(** C4: when every listed fragment downloads and validates, lines 74-95
    return the fragments' contributions concatenated in listing order, for
    every order in which the download operations complete. *)
Theorem C4_assembly_in_listing_order s3Client eventFiles contributions order s :
  Forall2 (fun key events => fragment ext s3Client key = Ok events)
    eventFiles contributions ->
  all_complete (length eventFiles) order ->
  exists s',
    downloadEvents (with_completion ext order) s3Client eventFiles s
    = (Returned (concat contributions), s') /\
    trace s' = (trace s ++ map (call_download s3Client) eventFiles)%list.
Proof.
  intros Hall Hdone. rewrite downloadEvents_run.
  change (fragment (with_completion ext order)) with (fragment ext).
  change (completion (with_completion ext order)) with order.
  rewrite (contributions_outcomes _ _ _ Hall), Promise_all_fulfilled.
  - eexists. split; reflexivity.
  - now rewrite <- (Forall2_length _ _ _ Hall).
Qed.

(** C2: when the listing of an attempt returns no key, the assembled
    sequence is empty, the attempt logs the warning and returns, and it
    makes no merge call. *)
Theorem C2_no_fragments_no_merge job s startTime s3Client s1 :
  listEventFiles ext job s = (Returned (startTime, s3Client, []), s1) ->
  downloadEvents ext s3Client [] s1 = (Returned [], s1) /\
  exists s2,
    ingestionQueueProcessor ext job s = (Returned tt, s2) /\
    trace s2 = (trace s1 ++
                [logger_warn ("No events found for project " ++ projectId job
                              ++ " and event " ++ eventBodyId job)])%list /\
    logger_warn ("No events found for project " ++ projectId job
                 ++ " and event " ++ eventBodyId job) ∈ attempt_calls ext job s /\
    calls is_mergeAndWrite (attempt_calls ext job s) = 0.
Proof.
  intros Hlist.
  assert (downloadEvents ext s3Client [] s1 = (Returned [], s1)) as Hdl.
  { rewrite downloadEvents_run. simpl map. rewrite Promise_all_nil, app_nil_r.
    now destruct s1. }
  split; [exact Hdl|].
  assert (ingestionQueueProcessor_try ext job s
          = mergeEvents ext job startTime [] s1) as Htry.
  { unfold ingestionQueueProcessor_try.
    erewrite bind_Returned by exact Hlist. cbv beta iota.
    erewrite bind_Returned by exact Hdl. reflexivity. }
  destruct (listEventFiles_run ext job s) as (out & s1' & tr & Hrun & Htr & Hpath).
  rewrite Hlist in Hrun. injection Hrun as <- <-.
  eexists. split; [|split; [|split]].
  - unfold ingestionQueueProcessor, try_catch. rewrite Htry. reflexivity.
  - reflexivity.
  - unfold attempt_calls, ingestionQueueProcessor, try_catch. rewrite Htry. simpl.
    rewrite Htr, <- app_assoc, drop_app_length.
    apply elem_of_app. right. constructor.
  - unfold attempt_calls, ingestionQueueProcessor, try_catch. rewrite Htry. simpl.
    rewrite Htr, <- app_assoc, drop_app_length.
    inversion Hpath; subst; reflexivity.
Qed.
End Assembly.

(** ** Outcomes of an attempt *)


Section Outcomes.
Context {Json IngestionEventType ClickhouseEntityType : Type}.
Variable ext : @Externals Json IngestionEventType ClickhouseEntityType.
Let State := @ProcState IngestionEventType ClickhouseEntityType.
Let Call := @Effect IngestionEventType ClickhouseEntityType.
Implicit Types (s : State) (job : Job).

(** Each way through lines 97-140 is the way the code takes when its
    conditions hold. *)
Lemma mergeEvents_path_sound job startTime s events out tr :
  mergeEvents_path ext job startTime s events out tr ->
  fst (mergeEvents ext job startTime events s) = out.
Proof.
  intros Hpath.
  destruct (mergeEvents_run ext job startTime events s)
    as (out' & s1 & tr' & Hrun & _ & Hpath').
  rewrite Hrun. simpl.
  destruct Hpath; destruct Hpath'; congruence.
Qed.


Lemma at_most_one_merge job s :
  calls is_mergeAndWrite (attempt_calls ext job s) <= 1.
Proof.
  destruct (ingestionQueueProcessor_run ext job s)
    as (out & s1 & tr & _ & _ & Hpath & _ & -> & _).
  destruct Hpath as [e s1' tr Hl Hpath|t0 c keys s1' tr e Hl Hpath Hall
                    |t0 c keys s1' tr Hl Hpath Hall
                    |t0 c keys s1' tr nested s2 out tr' Hl Hpath Hall Hdl Hmerge].
  4: destruct Hmerge.
  all: inversion Hpath; subst; clear Hpath.
  all: rewrite ?calls_app, ?no_merge_in_downloads; unfold calls; simpl; lia.
Qed.

(** C6: an attempt calls [mergeAndWrite] at most once.  A call it makes has
    a non-empty event sequence, which is the sequence assembled by lines
    74-95 from the listing of the attempt, the entity type computed from
    the first event of that sequence, and the job's [projectId] and
    [eventBodyId]. *)
Theorem C6_merge_once_with_assembled_batch job s :
  calls is_mergeAndWrite (attempt_calls ext job s) <= 1 /\
  forall entityType project body events,
    call_mergeAndWrite entityType project body events ∈ attempt_calls ext job s ->
    events <> [] /\
    project = projectId job /\
    body = eventBodyId job /\
    (exists first,
       head events = Some first /\
       getClickhouseEntityType ext first = Ok entityType) /\
    exists startTime s3Client eventFiles s1 s2,
      listEventFiles ext job s = (Returned (startTime, s3Client, eventFiles), s1) /\
      downloadEvents ext s3Client eventFiles s1 = (Returned events, s2).
Proof.
  split; [apply at_most_one_merge|].
  destruct (ingestionQueueProcessor_run ext job s)
    as (out & s1 & tr & _ & _ & Hpath & _ & -> & _).
  destruct Hpath as [e s1' tr Hl Hpath|t0 c keys s1' tr e Hl Hpath Hall
                    |t0 c keys s1' tr Hl Hpath Hall
                    |t0 c keys s1' tr nested s2 out tr' Hl Hpath Hall Hdl Hmerge].
  4: destruct Hmerge as [Hev|? ? Hev|? ? Hev|? ? ? Hev|? ? ? ? Hev|? ? ? Hev
                        |? ? ? ? Hev|? ? ? ? Hev].
  all: inversion Hpath; subst; clear Hpath.
  all: intros et project body evs Hin; simpl in Hin; find_call.
  all: rewrite Hev; repeat split; try discriminate; eauto.
  all: rewrite <- Hev; eauto 10.
Qed.

(** C8, as the code has it: the request counter is recorded at most once,
    and it is recorded exactly when the attempt has called [mergeAndWrite]
    and that call has returned. *)
Theorem C8_request_counter_after_merge job s :
  calls is_recordIncrement (attempt_calls ext job s) <= 1 /\
  forall stat,
    recordIncrement stat ∈ attempt_calls ext job s <->
    stat = "langfuse.queue.ingestion.request" /\
    exists entityType events,
      call_mergeAndWrite entityType (projectId job) (eventBodyId job) events
        ∈ attempt_calls ext job s /\
      mergeAndWrite ext entityType (projectId job) (eventBodyId job) events = Ok tt.
Proof.
  destruct (ingestionQueueProcessor_run ext job s)
    as (out & s1 & tr & _ & _ & Hpath & _ & -> & _).
  destruct Hpath as [e s1' tr Hl Hpath|t0 c keys s1' tr e Hl Hpath Hall
                    |t0 c keys s1' tr Hl Hpath Hall
                    |t0 c keys s1' tr nested s2 out tr' Hl Hpath Hall Hdl Hmerge].
  4: destruct Hmerge as [Hev|? ? Hev|? ? Hev|? ? ? Hev|? ? ? ? Hev|? ? ? Hev
                        |? ? ? ? Hev|? ? ? ? Hev].
  all: inversion Hpath; subst; clear Hpath.
  all: split; [rewrite ?calls_app, ?no_recordIncrement_in_downloads;
               unfold calls; simpl; lia|].
  all: intros stat; split;
    [intros Hin; simpl in Hin; find_call
    |intros (-> & et & evs & Hin & Hok); simpl in Hin; find_call].
  all: try congruence.
  all: try (split; [reflexivity|]; eexists _, _; split; [|eassumption]).
  all: simpl; show_call.
Qed.

Lemma try_throw_rethrown job s e :
  fst (ingestionQueueProcessor_try ext job s) = Thrown e ->
  fst (ingestionQueueProcessor ext job s) = Thrown e.
Proof.
  unfold ingestionQueueProcessor, try_catch.
  destruct (ingestionQueueProcessor_try ext job s) as [[[]|e'|] s']; simpl; congruence.
Qed.


Lemma attempt_download_rejected job s startTime s3Client eventFiles s1 e :
  listEventFiles ext job s = (Returned (startTime, s3Client, eventFiles), s1) ->
  Promise_all (map (fragment ext s3Client) eventFiles) (completion ext)
    = Some (Err e) ->
  fst (ingestionQueueProcessor ext job s) = Thrown e /\
  calls is_mergeAndWrite (attempt_calls ext job s) = 0.
Proof.
  intros Hlist Hrej.
  destruct (ingestionQueueProcessor_run ext job s)
    as (out & s1' & tr & _ & _ & Hpath & -> & -> & _).
  destruct Hpath as [e' s2 tr Hl Hpath|t0 c keys s2 tr e' Hl Hpath Hall
                    |t0 c keys s2 tr Hl Hpath Hall
                    |t0 c keys s2 tr nested s3 out tr' Hl Hpath Hall Hdl Hmerge];
    rewrite Hlist in Hl; try discriminate; injection Hl as <- <- <- <-;
    rewrite Hrej in Hall; try discriminate; injection Hall as <-.
  split; [reflexivity|].
  inversion Hpath; subst.
  rewrite !calls_app, no_merge_in_downloads. reflexivity.
Qed.

(** C5, as the code has it: a listed fragment that downloads and parses
    but validates as neither shape is rejected with
    [Error("Failed to parse event from S3: " + message)], where [message]
    is the error message of the single-event schema.  An attempt with such a
    fragment makes no merge call and does not return.  Once the operation on
    that fragment has completed the attempt throws the rejection of one of
    the listed fragments, this one when no other fragment is rejected. *)
Theorem C5_invalid_fragment_fails_attempt
        job s startTime s3Client eventFiles s1 i key file parsedFile error0 error :
  listEventFiles ext job s = (Returned (startTime, s3Client, eventFiles), s1) ->
  eventFiles !! i = Some key ->
  download ext s3Client key = Ok file ->
  JSON_parse ext file = Ok parsedFile ->
  ingestionBatchEvent_safeParse ext parsedFile = Failure error0 ->
  ingestionEvent_safeParse ext parsedFile = Failure error ->
  fragment ext s3Client key
  = Err (new_Error ("Failed to parse event from S3: " ++ zod_message error)) /\
  calls is_mergeAndWrite (attempt_calls ext job s) = 0 /\
  fst (ingestionQueueProcessor ext job s) <> Returned tt /\
  (i ∈ completion ext ->
   exists e,
     fst (ingestionQueueProcessor ext job s) = Thrown e /\
     (exists key', key' ∈ eventFiles /\ fragment ext s3Client key' = Err e) /\
     ((forall key' e', key' ∈ eventFiles -> fragment ext s3Client key' = Err e' ->
                       key' = key) ->
      e = new_Error ("Failed to parse event from S3: " ++ zod_message error))).
Proof.
  intros Hlist Hi Hfile Hparsed Hbatch Hsingle.
  assert (fragment ext s3Client key
          = Err (new_Error ("Failed to parse event from S3: " ++ zod_message error)))
    as Hfrag.
  { unfold fragment, validate. now rewrite Hfile, Hparsed, Hbatch, Hsingle. }
  split; [exact Hfrag|].
  assert (map (fragment ext s3Client) eventFiles !! i
          = Some (Err (new_Error ("Failed to parse event from S3: "
                                  ++ zod_message error)))) as Hout.
  { change (map (fragment ext s3Client) eventFiles)
      with (fragment ext s3Client <$> eventFiles).
    now rewrite list_lookup_fmap, Hi, <- Hfrag. }
  assert (calls is_mergeAndWrite (attempt_calls ext job s) = 0 /\
          fst (ingestionQueueProcessor ext job s) <> Returned tt) as [Hnone Hnot].
  { destruct (ingestionQueueProcessor_run ext job s)
      as (out & s1' & tr & _ & _ & Hpath & -> & -> & _).
    destruct Hpath as [e' s2 tr Hl Hpath|t0 c keys s2 tr e' Hl Hpath Hall
                      |t0 c keys s2 tr Hl Hpath Hall
                      |t0 c keys s2 tr nested s3 out tr' Hl Hpath Hall Hdl Hmerge];
      rewrite Hlist in Hl; try discriminate; injection Hl as <- <- <- <-.
    - inversion Hpath; subst.
      rewrite !calls_app, no_merge_in_downloads. split; [reflexivity | discriminate].
    - inversion Hpath; subst.
      rewrite !calls_app, no_merge_in_downloads. split; [reflexivity | discriminate].
    - exfalso. eapply Promise_all_not_resolved; eauto. }
  split; [exact Hnone|]. split; [exact Hnot|].
  intros Hdone.
  destruct (Promise_all_rejected_once_completed _ (completion ext) i _ Hout Hdone)
    as (e & j & Hrej & Hj).
  change (map (fragment ext s3Client) eventFiles)
    with (fragment ext s3Client <$> eventFiles) in Hj.
  rewrite list_lookup_fmap in Hj.
  destruct (eventFiles !! j) as [key'|] eqn:Hkey'; [|discriminate].
  injection Hj as Hj.
  destruct (attempt_download_rejected job s _ _ _ _ e Hlist Hrej) as [Hthrown _].
  exists e. split; [exact Hthrown|]. split.
  - exists key'. split; [|exact Hj]. eapply list_elem_of_lookup_2; eauto.
  - intros Honly.
    assert (key' = key) as -> by (eapply Honly; eauto using list_elem_of_lookup_2).
    congruence.
Qed.

(** The rejection of the queue length read reaches the [catch] block. *)
Lemma count_rejection_thrown job s startTime s3Client eventFiles s1 events s2
      first rest entityType e :
  listEventFiles ext job s = (Returned (startTime, s3Client, eventFiles), s1) ->
  downloadEvents ext s3Client eventFiles s1 = (Returned events, s2) ->
  events = first :: rest ->
  redis ext = true -> prisma ext = true ->
  getClickhouseEntityType ext first = Ok entityType ->
  mergeAndWrite ext entityType (projectId job) (eventBodyId job) events = Ok tt ->
  IngestionQueue_getInstance ext = Some {| count := Err e |} ->
  fst (ingestionQueueProcessor ext job s) = Thrown e.
Proof.
  intros Hlist Hdl Hev Hredis Hprisma Hentity Hmerge Hcount.
  apply try_throw_rethrown. unfold ingestionQueueProcessor_try.
  erewrite bind_Returned by exact Hlist. cbv beta iota.
  erewrite bind_Returned by exact Hdl.
  eapply mergeEvents_path_sound, path_count_rejected; eauto.
Qed.
End Outcomes.

(** ** The scenario *)

Ltac in_calls := vm_compute; repeat constructor.

Lemma C2_witness :
  exists s2,
    ingestionQueueProcessor Scenario.no_fragments Scenario.job0 initial = (Returned tt, s2) /\
    calls is_mergeAndWrite (attempt_calls Scenario.no_fragments Scenario.job0 initial) = 0.
Proof.
  edestruct (C2_no_fragments_no_merge Scenario.no_fragments Scenario.job0 initial)
    as (_ & s2 & Hrun & _ & _ & Hnone); [vm_compute; reflexivity|].
  exists s2. split; assumption.
Defined.

Lemma C3_witness :
  fragment Scenario.two_fragments Scenario.client0 "p1/trace/b1/B" = Ok ["t2"; "t3"].
Proof.
  exact (proj2 (C3_batch_first_then_single Scenario.two_fragments Scenario.client0
                  "p1/trace/b1/B" "[t2,t3]" "[t2,t3]" eq_refl eq_refl)).
Defined.

Lemma C4_witness :
  exists s',
    downloadEvents (with_completion Scenario.two_fragments [1; 0]) Scenario.client0
      Scenario.keys0 initial
    = (Returned ["t1"; "t2"; "t3"], s').
Proof.
  edestruct (C4_assembly_in_listing_order Scenario.two_fragments Scenario.client0
               Scenario.keys0 [["t1"]; ["t2"; "t3"]] [1; 0] initial) as (s' & Hrun & _).
  - repeat constructor.
  - intros [|[|i]] Hi; [repeat constructor..|simpl in Hi; lia].
  - exists s'. exact Hrun.
Defined.

(** Fragments A, X and B are listed and only the operation on X completes:
    the attempt throws the validation error of X and merges nothing. *)
Lemma C5_witness :
  1 ∈ completion Variants.only_invalid_completes /\
  fst (ingestionQueueProcessor Variants.only_invalid_completes Scenario.job0 initial)
  = Thrown (new_Error "Failed to parse event from S3: Required") /\
  calls is_mergeAndWrite
    (attempt_calls Variants.only_invalid_completes Scenario.job0 initial) = 0.
Proof.
  assert (1 ∈ completion Variants.only_invalid_completes) as Hdone by repeat constructor.
  split; [exact Hdone|].
  edestruct (C5_invalid_fragment_fails_attempt Variants.only_invalid_completes Scenario.job0
               initial 1500%Z Scenario.client0)
    with (i := 1) (key := "p1/trace/b1/X") (file := "{unexpected}")
         (parsedFile := "{unexpected}")
    as (_ & Hnone & _ & Hthrown).
  - vm_compute; reflexivity.
  - reflexivity.
  - reflexivity.
  - reflexivity.
  - reflexivity.
  - reflexivity.
  - split; [|exact Hnone].
    destruct (Hthrown Hdone) as (e & -> & _ & Honly). f_equal. apply Honly.
    intros key' e' Hin Hrej.
    apply elem_of_cons in Hin as [->|Hin]; [discriminate Hrej|].
    apply elem_of_cons in Hin as [->|Hin]; [reflexivity|].
    apply elem_of_cons in Hin as [->|Hin]; [discriminate Hrej|].
    now apply elem_of_nil in Hin.
Defined.

(** The error thrown for the unexpected fragment does not mention its key;
    and when the download of another fragment is rejected first, the error
    thrown is that rejection and not a validation error. *)
Lemma C5_counterexample :
  download Scenario.only_invalid Scenario.client0 "p1/trace/b1/X" = Ok "{unexpected}" /\
  JSON_parse Scenario.only_invalid "{unexpected}" = Ok "{unexpected}" /\
  ingestionBatchEvent_safeParse Scenario.only_invalid "{unexpected}"
  = Failure {| zod_message := "Expected array" |} /\
  ingestionEvent_safeParse Scenario.only_invalid "{unexpected}"
  = Failure {| zod_message := "Required" |} /\
  fst (ingestionQueueProcessor Scenario.only_invalid Scenario.job0 initial)
  = Thrown {| name := "Error"; message := "Failed to parse event from S3: Required" |} /\
  includes "p1/trace/b1/X" "Failed to parse event from S3: Required" = false /\
  includes "p1/trace/b1/X" "Error" = false /\
  listFiles Variants.missing_then_invalid Scenario.client0 "p1/trace/b1/"
  = Ok ["p1/trace/b1/Z"; "p1/trace/b1/X"] /\
  fragment Variants.missing_then_invalid Scenario.client0 "p1/trace/b1/X"
  = Err {| name := "Error"; message := "Failed to parse event from S3: Required" |} /\
  fst (ingestionQueueProcessor Variants.missing_then_invalid Scenario.job0 initial)
  = Thrown {| name := "NoSuchKey"; message := "The specified key does not exist." |}.
Proof. repeat split; vm_compute; reflexivity. Qed.

Lemma C6_witness :
  ["t1"; "t2"; "t3"] <> [] /\
  exists startTime s3Client eventFiles s1 s2,
    listEventFiles Scenario.two_fragments Scenario.job0 initial
    = (Returned (startTime, s3Client, eventFiles), s1) /\
    downloadEvents Scenario.two_fragments s3Client eventFiles s1
    = (Returned ["t1"; "t2"; "t3"], s2).
Proof.
  destruct (C6_merge_once_with_assembled_batch Scenario.two_fragments Scenario.job0 initial)
    as [_ Hcall].
  destruct (Hcall "trace" "p1" "b1" ["t1"; "t2"; "t3"]) as (Hne & _ & _ & _ & Hasm).
  - in_calls.
  - split; assumption.
Defined.

Lemma C7_witness :
  fst (ingestionQueueProcessor Scenario.two_fragments Scenario.job_no_name initial)
  = Thrown (new_Error "Event name not found") /\
  calls is_listFiles (attempt_calls Scenario.two_fragments Scenario.job_no_name initial) = 0 /\
  calls is_listFiles (attempt_calls Scenario.two_fragments Scenario.job0 initial) = 1 /\
  exists s3Client,
    call_listFiles s3Client "p1/trace/b1/"
      ∈ attempt_calls Scenario.two_fragments Scenario.job0 initial.
Proof.
  destruct (C7_event_name_before_first_dash Scenario.two_fragments Scenario.job_no_name
              initial) as (p & Hshift & _ & _ & _ & Hempty & _).
  injection Hshift as <-.
  destruct (Hempty eq_refl) as (_ & Hlist & _ & Hthrown).
  split; [exact (Hthrown eq_refl)|]. split; [exact Hlist|].
  destruct (C7_event_name_before_first_dash Scenario.two_fragments Scenario.job0 initial)
    as (p & Hshift & _ & _ & _ & _ & Hnamed).
  injection Hshift as <-.
  exact (Hnamed ltac:(discriminate) eq_refl).
Defined.

Lemma C8_witness :
  recordIncrement "langfuse.queue.ingestion.request"
    ∈ attempt_calls Scenario.two_fragments Scenario.job0 initial.
Proof.
  apply (proj2 (C8_request_counter_after_merge Scenario.two_fragments Scenario.job0 initial)).
  split; [reflexivity|]. exists "trace", ["t1"; "t2"; "t3"].
  split; [in_calls | reflexivity].
Defined.

(** An attempt that finds no fragment returns without recording the request
    counter; so does one that fails on an unexpected fragment. *)
Lemma C8_counterexample :
  fst (ingestionQueueProcessor Scenario.no_fragments Scenario.job0 initial) = Returned tt /\
  (recordIncrement "langfuse.queue.ingestion.request"
     ∉ attempt_calls Scenario.no_fragments Scenario.job0 initial) /\
  (recordIncrement "langfuse.queue.ingestion.request"
     ∉ attempt_calls Scenario.only_invalid Scenario.job0 initial).
Proof.
  split; [reflexivity|].
  split; intros Hin; vm_compute in Hin;
    repeat (inversion Hin as [|? ? ? Hin']; subst; clear Hin; rename Hin' into Hin);
    inversion Hin.
Qed.


(** C1, where the code departs from it: in the scenario every step up to and
    including the merge succeeds, the read of the queue length is rejected,
    and the attempt throws the reason of that rejection after the merge call
    has been made. *)
Theorem C1_count_rejection_fails_attempt :
  listFiles Scenario.count_rejected Scenario.client0 "p1/trace/b1/" = Ok Scenario.keys0 /\
  Promise_all (map (fragment Scenario.count_rejected Scenario.client0) Scenario.keys0)
    (completion Scenario.count_rejected)
  = Some (Ok [["t1"]; ["t2"; "t3"]]) /\
  mergeAndWrite Scenario.count_rejected "trace" "p1" "b1" ["t1"; "t2"; "t3"] = Ok tt /\
  IngestionQueue_getInstance Scenario.count_rejected
  = Some {| count := Err Scenario.depth_error |} /\
  call_mergeAndWrite "trace" "p1" "b1" ["t1"; "t2"; "t3"]
    ∈ attempt_calls Scenario.count_rejected Scenario.job0 initial /\
  fst (ingestionQueueProcessor Scenario.count_rejected Scenario.job0 initial)
  = Thrown Scenario.depth_error.
Proof.
  do 4 (split; [reflexivity|]). split; [in_calls|].
  eapply count_rejection_thrown with (first := "t1") (entityType := "trace");
    vm_compute; reflexivity.
Qed.

(** ** Promise.all: the first rejection, and inputs that never settle *)

Section PromiseAllOrder.
Context {A : Type}.
Implicit Types (outs : list (Result A)) (st : AllState A).

(** Completions of inputs that are not rejected do not reject the
    aggregate. *)
Lemma no_rejection_kept outs before st :
  (forall j e, j ∈ before -> outs !! j <> Some (Err e)) ->
  (forall e, settled st <> Some (Err e)) ->
  forall e, settled (foldl (settle_one outs) st before) <> Some (Err e).
Proof.
  revert st. induction before as [|j before IH]; intros st Hok Hst; simpl; [exact Hst|].
  apply IH.
  - intros k e Hk. apply Hok. now apply elem_of_cons; right.
  - intros e. unfold settle_one.
    destruct (settled st) as [r|] eqn:Hs; [rewrite Hs; apply Hst|].
    destruct (outs !! j) as [[v|e']|] eqn:Ho; [| |now rewrite Hs].
    + destruct (values st !! j) as [[w|]|]; try (now rewrite Hs). simpl.
      destruct (Nat.eqb _ 0); [|discriminate].
      destruct (read_slots _); discriminate.
    + exfalso. apply (Hok j e'); [apply elem_of_cons; now left | exact Ho].
Qed.

(** The aggregate is rejected with the reason of the first input that is
    rejected, in completion order, whatever completes afterwards. *)
Lemma Promise_all_first_rejection outs before i after e :
  (forall j e', j ∈ before -> outs !! j <> Some (Err e')) ->
  outs !! i = Some (Err e) ->
  Promise_all outs (before ++ i :: after) = Some (Err e).
Proof.
  intros Hok Hi. unfold Promise_all. rewrite foldl_app. simpl.
  set (st := foldl (settle_one outs) (all_init (length outs)) before).
  pose proof (foldl_settle_inv outs before _ (all_init_inv outs)) as Hinv. fold st in Hinv.
  assert (settled st = None) as Hnone.
  { destruct (settled st) as [[l|e']|] eqn:Hs; [| |reflexivity].
    - apply (inv_resolved _ _ Hinv) in Hs. subst outs.
      rewrite list_lookup_fmap in Hi. destruct (l !! i); discriminate.
    - exfalso. eapply (no_rejection_kept outs before (all_init (length outs))); eauto.
      intros e''. simpl. destruct (Nat.eqb _ 0); discriminate. }
  assert (values st !! i = Some None) as Hslot.
  { destruct (lookup_lt_is_Some_2 (values st) i) as [[v|] Hv]; [| |assumption].
    - rewrite (inv_length _ _ Hinv). now apply lookup_lt_Some in Hi.
    - apply (inv_filled _ _ Hinv) in Hv. congruence. }
  assert (settled (settle_one outs st i) = Some (Err e)) as Hrej.
  { unfold settle_one. now rewrite Hnone, Hi, Hslot. }
  now rewrite (settled_stays _ _ _ _ Hrej).
Qed.

Lemma resolved_slots outs order st :
  (forall l, settled st = Some (Ok l) -> values st = Some <$> l) ->
  forall l, settled (foldl (settle_one outs) st order) = Some (Ok l) ->
            values (foldl (settle_one outs) st order) = Some <$> l.
Proof.
  revert st. induction order as [|j order IH]; intros st Hst; simpl; [exact Hst|].
  apply IH. intros l. unfold settle_one.
  destruct (settled st) as [r|] eqn:Hs; [rewrite Hs; apply Hst|].
  destruct (outs !! j) as [[v|e']|]; [| |rewrite Hs; discriminate].
  - destruct (values st !! j) as [[w|]|]; try (rewrite Hs; discriminate). simpl.
    destruct (Nat.eqb _ 0); [|discriminate].
    destruct (read_slots _) as [l'|] eqn:Hr; [|discriminate].
    simpl. intros [= <-]. now apply read_slots_Some.
  - destruct (values st !! j) as [[w|]|]; try (rewrite Hs; discriminate). discriminate.
Qed.

Lemma filled_completed outs order st i v :
  values (foldl (settle_one outs) st order) !! i = Some (Some v) ->
  values st !! i = Some (Some v) \/ i ∈ order.
Proof.
  revert st. induction order as [|j order IH]; intros st H; simpl in *; [now left|].
  destruct (IH _ H) as [Hone|Hin]; [|right; apply elem_of_cons; now right].
  revert Hone. unfold settle_one.
  destruct (settled st); [now left|].
  destruct (outs !! j) as [[w|e']|]; [| |now left];
    destruct (values st !! j) as [[u|]|] eqn:Hv; try (now left).
  simpl. destruct (decide (j = i)) as [->|Hne].
  - intros _. right. apply elem_of_cons. now left.
  - rewrite list_lookup_insert_ne by assumption. now left.
Qed.

(** With no rejected input and an input that never completes, the
    aggregate never settles. *)
Lemma Promise_all_unsettled (l : list A) order i :
  i < length l -> i ∉ order ->
  Promise_all (Ok <$> l) order = None.
Proof.
  intros Hi Hnot. destruct (Promise_all (Ok <$> l) order) as [[l'|e]|] eqn:Hall;
    [| |reflexivity]; exfalso.
  - pose proof (Promise_all_Ok _ _ _ Hall) as Heq. apply fmap_Ok_inj in Heq. subst l'.
    unfold Promise_all in Hall.
    set (final := foldl (settle_one (Ok <$> l)) (all_init (length (Ok <$> l))) order) in *.
    assert (values final = Some <$> l) as Hslots.
    { apply resolved_slots; [|exact Hall]. intros l0. simpl.
      destruct (Nat.eqb_spec (length (Ok <$> l)) 0) as [Hz|]; [|discriminate].
      intros [= <-]. now rewrite Hz. }
    destruct (lookup_lt_is_Some_2 l i Hi) as [v Hv].
    assert (values final !! i = Some (Some v)) as Hfilled
      by (now rewrite Hslots, list_lookup_fmap, Hv).
    apply filled_completed in Hfilled as [Hinit|Hin]; [|contradiction].
    simpl in Hinit. apply lookup_replicate in Hinit as [? _]. discriminate.
  - apply Promise_all_Err in Hall as [j Hj].
    rewrite list_lookup_fmap in Hj. destruct (l !! j); discriminate.
Qed.
End PromiseAllOrder.

(** ** The state an attempt leaves *)

Ltac keeps_cached :=
  repeat first
    [ apply keeps_ret | apply keeps_throw | apply keeps_emit | apply keeps_await
    | apply keeps_await_opt | apply keeps_Date_now_read
    | apply keeps_getS3StorageServiceClient | apply keeps_request_downloads
    | apply keeps_bind | apply keeps_try_catch
    | match goal with
      | |- forall _, _ => intro
      | |- keeps_client _ (if ?b then _ else _) => destruct b
      | |- keeps_client _ (match ?x with _ => _ end) => destruct x
      end ].

Section AttemptState.
Context {Json IngestionEventType ClickhouseEntityType : Type}.
Variable ext : @Externals Json IngestionEventType ClickhouseEntityType.
Let State := @ProcState IngestionEventType ClickhouseEntityType.
Let Call := @Effect IngestionEventType ClickhouseEntityType.
Implicit Types (s : State) (job : Job).

Lemma not_configured_true :
  not_configured ext = true <->
  LANGFUSE_S3_EVENT_UPLOAD_ENABLED (env ext) <> Some "true" \/
  LANGFUSE_S3_EVENT_UPLOAD_BUCKET (env ext) = None \/
  LANGFUSE_S3_EVENT_UPLOAD_BUCKET (env ext) = Some "".
Proof.
  unfold not_configured, truthy.
  destruct (bool_decide_reflect (LANGFUSE_S3_EVENT_UPLOAD_ENABLED (env ext) = Some "true"))
    as [He|He]; simpl.
  - destruct (LANGFUSE_S3_EVENT_UPLOAD_BUCKET (env ext)) as [[|a b]|]; simpl;
      split; auto; intros [?|[?|?]]; congruence.
  - split; auto.
Qed.

Lemma not_configured_false :
  not_configured ext = false ->
  exists bucket,
    LANGFUSE_S3_EVENT_UPLOAD_BUCKET (env ext) = Some bucket /\ bucket <> "".
Proof.
  intros H. destruct (LANGFUSE_S3_EVENT_UPLOAD_BUCKET (env ext)) as [[|a b]|] eqn:Hb.
  - assert (not_configured ext = true) by (apply not_configured_true; auto). congruence.
  - eexists. split; [reflexivity | discriminate].
  - assert (not_configured ext = true) by (apply not_configured_true; auto). congruence.
Qed.

(** The accessor hands out [client_in] and leaves it in the cache. *)
Lemma accessor_client bucket s :
  exists s0,
    getS3StorageServiceClient ext bucket s = (Returned (client_in ext s bucket), s0) /\
    s3StorageServiceClient s0 = Some (client_in ext s bucket) /\
    clock s0 = clock s /\ trace s0 = trace s /\
    constructed s0 = match s3StorageServiceClient s with
                     | Some _ => constructed s
                     | None => S (constructed s)
                     end.
Proof.
  unfold getS3StorageServiceClient, client_in.
  destruct (s3StorageServiceClient s) as [c|] eqn:Hc; eexists; (split; [reflexivity|]);
    simpl; auto.
Qed.

(** Lines 45-72 on a configured deployment, step by step. *)
Lemma listEventFiles_configured job s :
  not_configured ext = false ->
  exists bucket s1,
    LANGFUSE_S3_EVENT_UPLOAD_BUCKET (env ext) = Some bucket /\ bucket <> "" /\
    s3StorageServiceClient s1 = Some (client_in ext s bucket) /\
    constructed s1 = match s3StorageServiceClient s with
                     | Some _ => constructed s
                     | None => S (constructed s)
                     end /\
    clock s1 = S (clock s) /\
    match shift (split "-" (type job)) with
    | Some (String a n) =>
        listEventFiles ext job s
        = (match listFiles ext (client_in ext s bucket)
                   (storage_prefix ext job (String a n)) with
           | Ok eventFiles =>
               Returned (Date_now ext (clock s), client_in ext s bucket, eventFiles)
           | Err e => Thrown e
           end, s1) /\
        trace s1 = (trace s ++ listing_calls ext job (client_in ext s bucket) (String a n))%list
    | _ =>
        listEventFiles ext job s = (Thrown (new_Error "Event name not found"), s1) /\
        trace s1 = trace s
    end.
Proof.
  intros Hcfg. destruct (not_configured_false Hcfg) as (bucket & Hb & Hne).
  unfold listEventFiles. erewrite bind_Returned by reflexivity.
  rewrite Hcfg, Hb. erewrite bind_Returned by reflexivity.
  match goal with
  | |- context [bind (getS3StorageServiceClient ext bucket) _ ?s'] =>
      destruct (accessor_client bucket s') as (s0 & Hget & Hcache & Hclock & Htrace & Hn)
  end.
  change (client_in ext _ bucket) with (client_in ext s bucket) in *.
  simpl in Hclock, Htrace, Hn.
  erewrite bind_Returned by exact Hget.
  destruct (shift (split "-" (type job))) as [[|a n]|].
  - exists bucket, s0. repeat split; auto.
  - erewrite bind_Returned by reflexivity. rewrite !bind_emit.
    destruct (listFiles ext (client_in ext s bucket) (storage_prefix ext job (String a n)))
      as [keys|e] eqn:Hl; cbn [await].
    + erewrite bind_Returned by reflexivity.
      eexists bucket, _. split; [reflexivity|]. split; [exact Hne|].
      match goal with |- _ /\ _ /\ _ /\ ?D => cut D end.
      2:{ rewrite Hl. split; [reflexivity|]. simpl. unfold listing_calls.
          now rewrite Htrace, <- app_assoc. }
      intros HD. repeat split; simpl; auto; apply HD.
    + eexists bucket, _. split; [reflexivity|]. split; [exact Hne|].
      match goal with |- _ /\ _ /\ _ /\ ?D => cut D end.
      2:{ rewrite Hl. split; [reflexivity|]. simpl. unfold listing_calls.
          now rewrite Htrace, <- app_assoc. }
      intros HD. repeat split; simpl; auto; apply HD.
  - exists bucket, s0. repeat split; auto.
Qed.

Lemma listEventFiles_not_configured job s :
  not_configured ext = true ->
  listEventFiles ext job s
  = (Thrown config_error,
     {| s3StorageServiceClient := s3StorageServiceClient s;
        constructed := constructed s;
        clock := S (clock s);
        trace := trace s |}).
Proof.
  intros Hcfg. unfold listEventFiles. erewrite bind_Returned by reflexivity.
  now rewrite Hcfg.
Qed.

(** What follows lines 45-72 keeps the cached client. *)
Lemma rest_keeps_client c job (out : Outcome (Z * S3StorageService * list string)) s1 :
  s3StorageServiceClient s1 = Some c ->
  forall s,
    listEventFiles ext job s = (out, s1) ->
    s3StorageServiceClient (snd (ingestionQueueProcessor ext job s)) = Some c /\
    constructed (snd (ingestionQueueProcessor ext job s)) = constructed s1.
Proof.
  intros Hc s Hrun.
  assert (forall x : Z * S3StorageService * list string,
            keeps_client c
              (try_catch
                 (let '(startTime, s3Client, eventFiles) := x in
                  bind (downloadEvents ext s3Client eventFiles)
                    (fun events => mergeEvents ext job startTime events))
                 (fun e =>
                    bind (emit (logger_error
                                  ("Failed job ingestion processing for " ++ projectId job)
                                  e))
                      (fun _ => bind (emit (traceException e)) (fun _ => throw e)))))
    as Hrest.
  { intros [[t0 c'] keys].
    unfold downloadEvents, mergeEvents, logQueueSize, promise_catch, promise_then.
    keeps_cached. }
  unfold ingestionQueueProcessor, ingestionQueueProcessor_try, try_catch.
  destruct out as [x|e|].
  - erewrite bind_Returned by exact Hrun. exact (Hrest x s1 Hc).
  - erewrite bind_Thrown by exact Hrun. simpl. auto.
  - erewrite bind_Pending by exact Hrun. simpl. auto.
Qed.

(** What a returned listing says about the deployment and the state. *)
Lemma listEventFiles_Returned job s startTime s3Client eventFiles s1 :
  listEventFiles ext job s = (Returned (startTime, s3Client, eventFiles), s1) ->
  exists bucket eventName,
    not_configured ext = false /\
    LANGFUSE_S3_EVENT_UPLOAD_BUCKET (env ext) = Some bucket /\
    shift (split "-" (type job)) = Some eventName /\ eventName <> "" /\
    s3Client = client_in ext s bucket /\
    startTime = Date_now ext (clock s) /\
    listFiles ext s3Client (storage_prefix ext job eventName) = Ok eventFiles /\
    trace s1 = (trace s ++ listing_calls ext job s3Client eventName)%list /\
    clock s1 = S (clock s) /\
    s3StorageServiceClient s1 = Some s3Client.
Proof.
  intros Hrun. destruct (not_configured ext) eqn:Hcfg.
  { rewrite listEventFiles_not_configured in Hrun by assumption. discriminate. }
  destruct (listEventFiles_configured job s Hcfg)
    as (bucket & s1' & Hb & _ & Hcache & _ & Hclock & Hname).
  destruct (shift (split "-" (type job))) as [[|a n]|] eqn:Hshift;
    try (destruct Hname as [Hname _]; rewrite Hname in Hrun; discriminate).
  destruct Hname as [Hname Htrace]. rewrite Hname in Hrun.
  destruct (listFiles ext (client_in ext s bucket) (storage_prefix ext job (String a n)))
    as [keys|e] eqn:Hl; [|discriminate].
  injection Hrun as <- <- <- <-.
  exists bucket, (String a n). repeat split; auto.
Qed.

(** An attempt whose listing returns: its calls are those of the listing,
    one download request per listed key, and then what the settled downloads
    lead to. *)
Lemma listed_attempt job s startTime s3Client eventFiles s1 :
  listEventFiles ext job s = (Returned (startTime, s3Client, eventFiles), s1) ->
  exists eventName out tr',
    shift (split "-" (type job)) = Some eventName /\
    fst (ingestionQueueProcessor ext job s) = out /\
    attempt_calls ext job s
    = (listing_calls ext job s3Client eventName
       ++ map (call_download s3Client) eventFiles ++ tr' ++ catch_calls job out)%list /\
    match Promise_all (map (fragment ext s3Client) eventFiles) (completion ext) with
    | Some (Err e) => out = Thrown e /\ tr' = []
    | None => out = Pending /\ tr' = []
    | Some (Ok nested) =>
        exists s2, clock s2 = S (clock s) /\
                   mergeEvents_path ext job startTime s2 (concat nested) out tr'
    end.
Proof.
  intros Hrun.
  destruct (listEventFiles_Returned _ _ _ _ _ _ Hrun)
    as (bucket & name & _ & _ & Hname & _ & _ & _ & _ & Htrace & Hclock & _).
  exists name.
  pose proof (downloadEvents_run ext s3Client eventFiles s1) as Hdl.
  unfold attempt_calls, ingestionQueueProcessor, ingestionQueueProcessor_try, try_catch.
  erewrite bind_Returned by exact Hrun. cbv beta iota.
  destruct (Promise_all _ _) as [[nested|e]|].
  - erewrite bind_Returned by exact Hdl.
    match goal with
    | |- context [mergeEvents ext job startTime (concat nested) ?s2] =>
        destruct (mergeEvents_run ext job startTime (concat nested) s2)
          as (out & s3 & tr' & Hm & Htr' & Hpath)
    end.
    rewrite Hm. simpl in Htr'. exists out, tr'. split; [assumption|].
    split; [now destruct out|]. split; [|eexists; split; [|exact Hpath]; exact Hclock].
    destruct out as [[]|e|]; simpl; rewrite Htr', Htrace, <- ?app_assoc, drop_app_length;
      simpl; rewrite ?app_nil_r; reflexivity.
  - erewrite bind_Thrown by exact Hdl. exists (Thrown e), []. simpl.
    split; [assumption|]. split; [reflexivity|]. split; [|auto].
    rewrite Htrace, <- !app_assoc, drop_app_length. reflexivity.
  - erewrite bind_Pending by exact Hdl. exists Pending, []. simpl.
    split; [assumption|]. split; [reflexivity|]. split; [|auto].
    rewrite Htrace, <- !app_assoc, drop_app_length. simpl. now rewrite app_nil_r.
Qed.
End AttemptState.

(** ** The checks, the client and the listing *)

Lemma shift_split_prefix (p rest : string) :
  (forall ch, In ch (list_ascii_of_string p) -> ch <> "-"%char) ->
  shift (split "-" p) = Some p /\
  shift (split "-" (p ++ "-" ++ rest)) = Some p.
Proof.
  induction p as [|ch p IH]; intros Hp; simpl.
  - split; reflexivity.
  - destruct (Ascii.eqb_spec ch "-"%char) as [->|Hne].
    { exfalso. apply (Hp "-"%char); [now left | reflexivity]. }
    destruct IH as [IH1 IH2]; [intros c Hc; apply Hp; now right|].
    unfold shift in *.
    destruct (split "-" p) as [|w ws]; [discriminate|].
    destruct (split "-" (p ++ "-" ++ rest)) as [|w' ws']; [discriminate|].
    simpl in *. injection IH1 as ->. injection IH2 as ->. split; reflexivity.
Qed.

Section Checks.
Context {Json IngestionEventType ClickhouseEntityType : Type}.
Variable ext : @Externals Json IngestionEventType ClickhouseEntityType.
Let State := @ProcState IngestionEventType ClickhouseEntityType.
Let Call := @Effect IngestionEventType ClickhouseEntityType.
Implicit Types (s : State) (job : Job).

Lemma catch_thrown job s e s1 :
  ingestionQueueProcessor_try ext job s = (Thrown e, s1) ->
  fst (ingestionQueueProcessor ext job s) = Thrown e /\
  trace (snd (ingestionQueueProcessor ext job s))
  = (trace s1 ++ catch_calls job (Thrown e))%list /\
  s3StorageServiceClient (snd (ingestionQueueProcessor ext job s))
  = s3StorageServiceClient s1 /\
  constructed (snd (ingestionQueueProcessor ext job s)) = constructed s1.
Proof.
  intros Htry. unfold ingestionQueueProcessor, try_catch. rewrite Htry.
  unfold bind, emit, throw. simpl. now rewrite <- app_assoc.
Qed.

(** X1: when the feature flag is not ["true"] or the bucket name is unset or
    empty, the attempt throws the configuration error at once: the error
    report of the [catch] block is all it does, and no client is
    constructed or cached. *)
Theorem X1_not_configured_fails_before_any_call job s :
  LANGFUSE_S3_EVENT_UPLOAD_ENABLED (env ext) <> Some "true" \/
  LANGFUSE_S3_EVENT_UPLOAD_BUCKET (env ext) = None \/
  LANGFUSE_S3_EVENT_UPLOAD_BUCKET (env ext) = Some "" ->
  fst (ingestionQueueProcessor ext job s)
  = Thrown (new_Error "S3 event store is not enabled but useS3EventStore is true") /\
  attempt_calls ext job s
  = [logger_error ("Failed job ingestion processing for " ++ projectId job)
       (new_Error "S3 event store is not enabled but useS3EventStore is true");
     traceException
       (new_Error "S3 event store is not enabled but useS3EventStore is true")] /\
  s3StorageServiceClient (snd (ingestionQueueProcessor ext job s))
  = s3StorageServiceClient s /\
  constructed (snd (ingestionQueueProcessor ext job s)) = constructed s.
Proof.
  intros Hcfg. apply not_configured_true in Hcfg.
  pose proof (listEventFiles_not_configured ext job s Hcfg) as Hlist.
  edestruct (catch_thrown job s config_error) as (Hout & Htrace & Hcache & Hn).
  { unfold ingestionQueueProcessor_try. now erewrite bind_Thrown by exact Hlist. }
  split; [exact Hout|]. split; [|split; assumption].
  unfold attempt_calls. rewrite Htrace. simpl. now rewrite drop_app_length.
Qed.

(** On a configured deployment an attempt leaves the accessor's client in
    the cache, and its storage calls are made on that client. *)
Lemma attempt_client job s :
  not_configured ext = false ->
  exists bucket,
    LANGFUSE_S3_EVENT_UPLOAD_BUCKET (env ext) = Some bucket /\
    s3StorageServiceClient (snd (ingestionQueueProcessor ext job s))
    = Some (client_in ext s bucket) /\
    constructed (snd (ingestionQueueProcessor ext job s))
    = match s3StorageServiceClient s with
      | Some _ => constructed s
      | None => S (constructed s)
      end /\
    (forall c prefix, call_listFiles c prefix ∈ attempt_calls ext job s ->
                      c = client_in ext s bucket) /\
    (forall c key, call_download c key ∈ attempt_calls ext job s ->
                   c = client_in ext s bucket).
Proof.
  intros Hcfg.
  destruct (listEventFiles_configured ext job s Hcfg)
    as (bucket & s1 & Hb & _ & Hcache & Hn & _ & Hname).
  exists bucket. split; [exact Hb|].
  assert (exists out, listEventFiles ext job s = (out, s1)) as [out Hrun].
  { destruct (shift (split "-" (type job))) as [[|a n]|]; destruct Hname; eauto. }
  destruct (rest_keeps_client ext _ job out s1 Hcache s Hrun) as [Hkept Hsame].
  split; [exact Hkept|]. split; [now rewrite Hsame|].
  destruct out as [[[t0 c'] keys]|e|].
  - destruct (listEventFiles_Returned ext _ _ _ _ _ _ Hrun)
      as (bucket' & name & _ & Hb' & _ & _ & -> & _).
    assert (bucket' = bucket) as -> by congruence.
    destruct (listed_attempt ext _ _ _ _ _ _ Hrun)
      as (name' & out & tr' & _ & _ & -> & Hall).
    assert (forall c x, (call_listFiles c x ∉ tr') /\ (call_download c x ∉ tr')) as Htr'.
    { intros c x. destruct (Promise_all _ _) as [[nested|e]|].
      - destruct Hall as (s2 & _ & Hpath).
        destruct Hpath; split; intros Hin; find_call.
      - destruct Hall as [_ ->]. split; intros Hin; find_call.
      - destruct Hall as [_ ->]. split; intros Hin; find_call. }
    split; intros c x Hin; unfold listing_calls in Hin; find_call;
      try reflexivity; exfalso; destruct (Htr' c x); auto.
  - assert (exists tr, trace s1 = (trace s ++ tr)%list /\
                       (tr = [] \/
                        exists name, tr = listing_calls ext job (client_in ext s bucket) name))
      as (tr & Htr & Hshape).
    { destruct (shift (split "-" (type job))) as [[|a n]|]; destruct Hname as [_ ->].
      - exists []. split; [now rewrite app_nil_r | now left].
      - eexists. split; [reflexivity | right; eauto].
      - exists []. split; [now rewrite app_nil_r | now left]. }
    edestruct (catch_thrown job s e) as (_ & Htrace & _).
    { unfold ingestionQueueProcessor_try. now erewrite bind_Thrown by exact Hrun. }
    unfold attempt_calls. rewrite Htrace, Htr, <- app_assoc, drop_app_length.
    destruct Hshape as [->|[name ->]]; unfold listing_calls;
      split; intros c x Hin; simpl in Hin; find_call; reflexivity.
  - destruct (shift (split "-" (type job))) as [[|a n]|]; destruct Hname as [Hname _];
      rewrite Hname in Hrun; try discriminate.
    destruct (listFiles ext _ _); discriminate.
Qed.

(** X2: on a configured deployment every attempt, whatever its outcome,
    leaves in the cache the client the accessor hands out for the configured
    bucket, constructs a client only when the cache was empty, and makes all
    its [listFiles] and [download] calls on that client; so do the attempts
    that follow it. *)
Theorem X2_attempts_share_the_cached_client job s :
  not_configured ext = false ->
  exists bucket,
    LANGFUSE_S3_EVENT_UPLOAD_BUCKET (env ext) = Some bucket /\
    s3StorageServiceClient (snd (ingestionQueueProcessor ext job s))
    = Some (client_in ext s bucket) /\
    constructed (snd (ingestionQueueProcessor ext job s))
    = match s3StorageServiceClient s with
      | Some _ => constructed s
      | None => S (constructed s)
      end /\
    (forall c prefix, call_listFiles c prefix ∈ attempt_calls ext job s ->
                      c = client_in ext s bucket) /\
    (forall c key, call_download c key ∈ attempt_calls ext job s ->
                   c = client_in ext s bucket) /\
    forall job',
      let s' := snd (ingestionQueueProcessor ext job s) in
      constructed (snd (ingestionQueueProcessor ext job' s')) = constructed s' /\
      (forall c prefix, call_listFiles c prefix ∈ attempt_calls ext job' s' ->
                        c = client_in ext s bucket) /\
      (forall c key, call_download c key ∈ attempt_calls ext job' s' ->
                     c = client_in ext s bucket).
Proof.
  intros Hcfg.
  destruct (attempt_client job s Hcfg) as (bucket & Hb & Hcache & Hn & Hlist & Hdl).
  exists bucket. do 5 (split; [assumption|]).
  intros job' s'.
  destruct (attempt_client job' s' Hcfg) as (bucket' & Hb' & _ & Hn' & Hlist' & Hdl').
  assert (bucket' = bucket) as -> by congruence.
  assert (client_in ext s' bucket = client_in ext s bucket) as Hsame
    by (unfold client_in at 1; subst s'; now rewrite Hcache).
  rewrite Hsame in *. subst s'. rewrite Hcache in Hn'. auto.
Qed.

Lemma no_listFiles_after_listing job startTime s2 events out tr' :
  mergeEvents_path ext job startTime s2 events out tr' ->
  List.filter is_listFiles (tr' ++ catch_calls job out) = [].
Proof. intros Hpath. destruct Hpath; reflexivity. Qed.

Lemma filter_listFiles_downloads s3Client keys :
  List.filter is_listFiles (map (call_download s3Client) keys : list Call) = [].
Proof. induction keys; simpl; auto. Qed.

(** An attempt that passes the checks of lines 47 and 60 begins with the
    calls of the listing and lists nothing else. *)
Lemma named_attempt job s a n :
  not_configured ext = false ->
  shift (split "-" (type job)) = Some (String a n) ->
  exists bucket rest,
    LANGFUSE_S3_EVENT_UPLOAD_BUCKET (env ext) = Some bucket /\
    attempt_calls ext job s
    = (listing_calls ext job (client_in ext s bucket) (String a n) ++ rest)%list /\
    List.filter is_listFiles rest = [] /\
    forall e,
      listFiles ext (client_in ext s bucket) (storage_prefix ext job (String a n)) = Err e ->
      fst (ingestionQueueProcessor ext job s) = Thrown e /\
      rest = catch_calls job (Thrown e).
Proof.
  intros Hcfg Hshift.
  destruct (listEventFiles_configured ext job s Hcfg)
    as (bucket & s1 & Hb & _ & _ & _ & _ & Hname).
  rewrite Hshift in Hname. destruct Hname as [Hrun Htrace].
  exists bucket.
  destruct (listFiles ext (client_in ext s bucket) (storage_prefix ext job (String a n)))
    as [keys|e] eqn:Hl.
  - destruct (listed_attempt ext _ _ _ _ _ _ Hrun)
      as (name & out & tr' & Hname & _ & Hcalls & Hall).
    assert (name = String a n) as -> by congruence.
    eexists. split; [exact Hb|]. split; [exact Hcalls|]. split; [|discriminate].
    rewrite List.filter_app, filter_listFiles_downloads. simpl.
    destruct (Promise_all _ _) as [[nested|e]|].
    + destruct Hall as (s2 & _ & Hpath). eapply no_listFiles_after_listing; eauto.
    + now destruct Hall as [-> ->].
    + now destruct Hall as [-> ->].
  - edestruct (catch_thrown job s e) as (Hout & Hfinal & _).
    { unfold ingestionQueueProcessor_try. now erewrite bind_Thrown by exact Hrun. }
    exists (catch_calls job (Thrown e)). split; [exact Hb|]. split; [|split; [reflexivity|]].
    + unfold attempt_calls. now rewrite Hfinal, Htrace, <- app_assoc, drop_app_length.
    + intros e' [= <-]. auto.
Qed.

(** X3: on a configured deployment, for a job whose type tag is a non-empty
    prefix [p] without dash, alone or followed by a dash and anything, the
    attempt makes exactly one [listFiles] call, on the cached client and with
    the prefix built from the configured prefix, the project, [p] and the
    event body id: what follows the first dash of the tag plays no part. *)
Theorem X3_one_listing_under_the_tag_prefix job s p rest :
  not_configured ext = false ->
  p <> "" ->
  (forall ch, In ch (list_ascii_of_string p) -> ch <> "-"%char) ->
  type job = p \/ type job = p ++ "-" ++ rest ->
  exists bucket,
    LANGFUSE_S3_EVENT_UPLOAD_BUCKET (env ext) = Some bucket /\
    List.filter is_listFiles (attempt_calls ext job s)
    = [call_listFiles (client_in ext s bucket)
         (LANGFUSE_S3_EVENT_UPLOAD_PREFIX (env ext) ++ projectId job ++ "/"
          ++ p ++ "/" ++ eventBodyId job ++ "/")].
Proof.
  intros Hcfg Hne Hp Hty.
  assert (shift (split "-" (type job)) = Some p) as Hshift.
  { destruct (shift_split_prefix p rest Hp) as [H1 H2].
    destruct Hty as [->| ->]; assumption. }
  destruct p as [|a n]; [contradiction|].
  destruct (named_attempt job s a n Hcfg Hshift) as (bucket & tail & Hb & -> & Hnone & _).
  exists bucket. split; [exact Hb|].
  rewrite List.filter_app, Hnone. reflexivity.
Qed.

(** X4: when the listing is refused with [e], the attempt throws [e] after
    the info log and the [listFiles] call: it requests no download, makes no
    merge call and records no metric; the error report is all that
    follows. *)
Theorem X4_refused_listing_fails_attempt job s bucket eventName e :
  not_configured ext = false ->
  LANGFUSE_S3_EVENT_UPLOAD_BUCKET (env ext) = Some bucket ->
  shift (split "-" (type job)) = Some eventName ->
  eventName <> "" ->
  listFiles ext (client_in ext s bucket) (storage_prefix ext job eventName) = Err e ->
  fst (ingestionQueueProcessor ext job s) = Thrown e /\
  attempt_calls ext job s
  = [logger_info "Processing ingestion event" (projectId job) (type job) (eventBodyId job);
     call_listFiles (client_in ext s bucket) (storage_prefix ext job eventName);
     logger_error ("Failed job ingestion processing for " ++ projectId job) e;
     traceException e].
Proof.
  intros Hcfg Hb Hshift Hne Herr.
  destruct eventName as [|a n]; [contradiction|].
  destruct (named_attempt job s a n Hcfg Hshift) as (bucket' & tail & Hb' & Hcalls & _ & Hrefused).
  assert (bucket' = bucket) as -> by congruence.
  destruct (Hrefused e Herr) as [Hout ->].
  split; [exact Hout|]. rewrite Hcalls. reflexivity.
Qed.
End Checks.

(** ** Downloads, merge and metrics *)

Ltac attempt_paths H :=
  let Hpath := fresh "Hpath" in
  let Hmerge := fresh "Hmerge" in
  destruct H as [? ? ? ? Hpath|? ? ? ? ? ? ? Hpath ?|? ? ? ? ? ? Hpath ?
                |? ? ? ? ? ? ? ? ? ? Hpath ? ? Hmerge];
  [| | |destruct Hmerge];
  inversion Hpath; subst; clear Hpath.

Section Downloads.
Context {Json IngestionEventType ClickhouseEntityType : Type}.
Variable ext : @Externals Json IngestionEventType ClickhouseEntityType.
Let State := @ProcState IngestionEventType ClickhouseEntityType.
Let Call := @Effect IngestionEventType ClickhouseEntityType.
Implicit Types (s : State) (job : Job).

Lemma filter_download_downloads s3Client keys :
  List.filter is_download (map (call_download s3Client) keys : list Call)
  = map (call_download s3Client) keys.
Proof. induction keys as [|key keys IH]; simpl; [reflexivity | now rewrite IH]. Qed.

Lemma calls_downloads_none (kind : Call -> bool) s3Client keys :
  (forall key, kind (call_download s3Client key) = false) ->
  calls kind (map (call_download s3Client) keys) = 0.
Proof.
  intros Hk. unfold calls. induction keys as [|key keys IH]; simpl; [reflexivity|].
  now rewrite Hk.
Qed.

Lemma no_download_after_requests job startTime s2 events out tr' :
  mergeEvents_path ext job startTime s2 events out tr' ->
  List.filter is_download (tr' ++ catch_calls job out) = [].
Proof. intros Hpath. destruct Hpath; reflexivity. Qed.

(** X5: once the listing has returned, the attempt requests the download of
    every listed key exactly once, in listing order, on the client of the
    listing, whatever the outcome of the attempt: a rejected fragment does
    not keep the other downloads from being requested. *)
Theorem X5_every_listed_key_requested_once job s startTime s3Client eventFiles s1 :
  listEventFiles ext job s = (Returned (startTime, s3Client, eventFiles), s1) ->
  List.filter is_download (attempt_calls ext job s)
  = map (call_download s3Client) eventFiles.
Proof.
  intros Hrun.
  destruct (listed_attempt ext _ _ _ _ _ _ Hrun) as (name & out & tr' & _ & _ & -> & Hall).
  rewrite !List.filter_app, filter_download_downloads. simpl.
  rewrite <- List.filter_app.
  assert (List.filter is_download (tr' ++ catch_calls job out) = []) as ->;
    [|now rewrite app_nil_r].
  destruct (Promise_all _ _) as [[nested|e]|].
  - destruct Hall as (s2 & _ & Hpath). eapply no_download_after_requests; eauto.
  - now destruct Hall as [-> ->].
  - now destruct Hall as [-> ->].
Qed.

(** X6: the attempt fails as soon as one fragment is rejected.  When the
    download-and-validate operations complete in the order
    [before ++ i :: after], fragment [i] is rejected with [e] and no fragment
    of [before] is rejected, the attempt throws [e] and makes no merge call,
    whatever the fragments of [after] do, even if they never complete. *)
Theorem X6_first_rejection_fails_attempt
        job s startTime s3Client eventFiles s1 before i after key e :
  listEventFiles ext job s = (Returned (startTime, s3Client, eventFiles), s1) ->
  completion ext = (before ++ i :: after)%list ->
  eventFiles !! i = Some key ->
  fragment ext s3Client key = Err e ->
  (forall j key', j ∈ before -> eventFiles !! j = Some key' ->
                  forall e', fragment ext s3Client key' <> Err e') ->
  fst (ingestionQueueProcessor ext job s) = Thrown e /\
  calls is_mergeAndWrite (attempt_calls ext job s) = 0.
Proof.
  intros Hrun Horder Hi Hrej Hbefore.
  apply (attempt_download_rejected ext job s _ _ _ _ e Hrun).
  rewrite Horder.
  change (map (fragment ext s3Client) eventFiles)
    with (fragment ext s3Client <$> eventFiles).
  apply Promise_all_first_rejection.
  - intros j e' Hj Hlook. rewrite list_lookup_fmap in Hlook.
    destruct (eventFiles !! j) as [key'|] eqn:Hkey'; [|discriminate].
    injection Hlook as Hlook. exact (Hbefore j key' Hj Hkey' e' Hlook).
  - now rewrite list_lookup_fmap, Hi, <- Hrej.
Qed.

Lemma fulfilled_outcomes s3Client eventFiles :
  (forall key, key ∈ eventFiles -> exists events, fragment ext s3Client key = Ok events) ->
  exists contributions,
    map (fragment ext s3Client) eventFiles = Ok <$> contributions /\
    length contributions = length eventFiles.
Proof.
  induction eventFiles as [|key keys IH]; intros Hall.
  - now exists [].
  - destruct (Hall key) as [events Hk]; [now left|].
    destruct IH as (l & Hl & Hlen); [intros k Hin; apply Hall; now right|].
    exists (events :: l). simpl. now rewrite Hk, Hl, Hlen.
Qed.

(** X7: the attempt waits for every download.  When no listed fragment is
    rejected and the download of one of them never completes, the attempt
    never ends: it makes no merge call, reports no error and records no
    metric. *)
Theorem X7_stalled_download_blocks_attempt job s startTime s3Client eventFiles s1 i :
  listEventFiles ext job s = (Returned (startTime, s3Client, eventFiles), s1) ->
  i < length eventFiles ->
  i ∉ completion ext ->
  (forall key, key ∈ eventFiles -> exists events, fragment ext s3Client key = Ok events) ->
  fst (ingestionQueueProcessor ext job s) = Pending /\
  calls is_mergeAndWrite (attempt_calls ext job s) = 0 /\
  calls is_logger_error (attempt_calls ext job s) = 0 /\
  calls is_telemetry (attempt_calls ext job s) = 0.
Proof.
  intros Hrun Hi Hnever Hok.
  destruct (fulfilled_outcomes s3Client eventFiles Hok) as (l & Hl & Hlen).
  destruct (listed_attempt ext _ _ _ _ _ _ Hrun) as (name & out & tr' & _ & Hout & -> & Hall).
  rewrite Hl, Promise_all_unsettled with (i := i) in Hall by (rewrite ?Hlen; assumption).
  destruct Hall as [-> ->]. split; [exact Hout|].
  rewrite !calls_app, !calls_downloads_none by reflexivity.
  repeat split; reflexivity.
Qed.
End Downloads.

Section Merge.
Context {Json IngestionEventType ClickhouseEntityType : Type}.
Variable ext : @Externals Json IngestionEventType ClickhouseEntityType.
Let State := @ProcState IngestionEventType ClickhouseEntityType.
Let Call := @Effect IngestionEventType ClickhouseEntityType.
Implicit Types (s : State) (job : Job).



(** X9: Redis and Prisma are looked at only once a non-empty batch has been
    assembled, Redis first.  When one of them is missing, the attempt throws
    the matching error after all downloads, with no merge call and no
    metric. *)
Theorem X9_missing_store_fails_before_merge
        job s startTime s3Client eventFiles s1 events s2 :
  listEventFiles ext job s = (Returned (startTime, s3Client, eventFiles), s1) ->
  downloadEvents ext s3Client eventFiles s1 = (Returned events, s2) ->
  events <> [] ->
  redis ext = false \/ prisma ext = false ->
  fst (ingestionQueueProcessor ext job s)
  = Thrown (new_Error (if redis ext then "Prisma not available"
                       else "Redis not available")) /\
  calls is_mergeAndWrite (attempt_calls ext job s) = 0 /\
  calls is_telemetry (attempt_calls ext job s) = 0 /\
  List.filter is_download (attempt_calls ext job s)
  = map (call_download s3Client) eventFiles.
Proof.
  intros Hrun Hdl Hne Hmissing.
  destruct (listed_attempt ext _ _ _ _ _ _ Hrun) as (name & out & tr' & _ & Hout & -> & Hall).
  rewrite downloadEvents_run in Hdl.
  destruct (Promise_all _ _) as [[nested|e]|]; try discriminate.
  injection Hdl as <- _. destruct Hall as (s2' & _ & Hpath).
  rewrite Hout. rewrite !List.filter_app, filter_download_downloads, !calls_app,
    !calls_downloads_none by reflexivity.
  destruct Hpath as [Hev|? ? Hev Hr|? ? Hev Hr Hp|? ? ? Hev Hr Hp|? ? ? ? Hev Hr Hp
                    |? ? ? Hev Hr Hp|? ? ? ? Hev Hr Hp|? ? ? ? Hev Hr Hp];
    try contradiction; try (destruct Hmissing; congruence).
  - rewrite Hr. simpl. now rewrite app_nil_r.
  - rewrite Hr. simpl. now rewrite app_nil_r.
Qed.

(** X10: no metric is recorded and the queue length is not read unless the
    merge call has been made and has returned: every [recordIncrement],
    [recordHistogram], [recordGauge], [count()] and debug log of an attempt
    comes with a [mergeAndWrite] call of that attempt that resolved. *)
Theorem X10_telemetry_only_after_merge job s ev :
  is_telemetry ev = true ->
  ev ∈ attempt_calls ext job s ->
  exists entityType events,
    call_mergeAndWrite entityType (projectId job) (eventBodyId job) events
      ∈ attempt_calls ext job s /\
    mergeAndWrite ext entityType (projectId job) (eventBodyId job) events = Ok tt.
Proof.
  destruct (ingestionQueueProcessor_run ext job s)
    as (out & s1 & tr & _ & _ & Hpath & _ & -> & _).
  intros Htel Hin.
  destruct Hpath as [e s1' tr Hl Hpath|t0 c keys s1' tr e Hl Hpath Hall
                    |t0 c keys s1' tr Hl Hpath Hall
                    |t0 c keys s1' tr nested s2 out tr' Hl Hpath Hall Hdl Hmerge].
  4: destruct Hmerge.
  all: inversion Hpath; subst; clear Hpath; simpl in Hin; find_call.
  all: try (subst ev; discriminate Htel).
  all: eexists _, _; (split; [|eassumption]); simpl; show_call.
Qed.
End Merge.


Section Metrics.
Context {Json IngestionEventType ClickhouseEntityType : Type}.
Variable ext : @Externals Json IngestionEventType ClickhouseEntityType.
Let State := @ProcState IngestionEventType ClickhouseEntityType.
Let Call := @Effect IngestionEventType ClickhouseEntityType.
Implicit Types (s : State) (job : Job).




(** X13: an attempt reports an error exactly when it throws, and then once:
    the error log with the project and the [traceException] call, both with
    the error thrown, are its last two calls and no other call of the
    attempt is an error log or a trace.  An attempt that returns or never
    ends reports nothing. *)
Theorem X13_one_error_report_per_failure job s :
  match fst (ingestionQueueProcessor ext job s) with
  | Thrown e =>
      exists tr,
        attempt_calls ext job s
        = (tr ++ [logger_error ("Failed job ingestion processing for " ++ projectId job) e;
                  traceException e])%list /\
        calls is_logger_error tr = 0 /\ calls is_traceException tr = 0
  | _ =>
      calls is_logger_error (attempt_calls ext job s) = 0 /\
      calls is_traceException (attempt_calls ext job s) = 0
  end.
Proof.
  destruct (ingestionQueueProcessor_run ext job s)
    as (out & s1 & tr & _ & _ & Hpath & -> & -> & _).
  assert (calls is_logger_error tr = 0 /\ calls is_traceException tr = 0) as [Hlog Htrace].
  { destruct Hpath as [e s1' tr Hl Hpath|t0 c keys s1' tr e Hl Hpath Hall
                      |t0 c keys s1' tr Hl Hpath Hall
                      |t0 c keys s1' tr nested s2 out tr' Hl Hpath Hall Hdl Hmerge].
    4: destruct Hmerge.
    all: inversion Hpath; subst; clear Hpath.
    all: rewrite ?calls_app, ?calls_downloads_none by reflexivity; split; reflexivity. }
  destruct out as [[]|e|]; simpl.
  - now rewrite app_nil_r.
  - exists tr. auto.
  - now rewrite app_nil_r.
Qed.
End Metrics.

(** ** The variations *)

Lemma X1_witness :
  fst (ingestionQueueProcessor Variants.disabled Scenario.job0 initial)
  = Thrown (new_Error "S3 event store is not enabled but useS3EventStore is true") /\
  constructed (snd (ingestionQueueProcessor Variants.disabled Scenario.job0 initial)) = 0.
Proof.
  destruct (X1_not_configured_fails_before_any_call Variants.disabled Scenario.job0 initial)
    as (Hout & _ & _ & Hn).
  - left. discriminate.
  - split; [exact Hout | exact Hn].
Defined.

Lemma X2_witness :
  constructed (snd (ingestionQueueProcessor Scenario.two_fragments Scenario.job0 initial)) = 1 /\
  constructed
    (snd (ingestionQueueProcessor Scenario.two_fragments Variants.job_update
            (snd (ingestionQueueProcessor Scenario.two_fragments Scenario.job0 initial))))
  = 1.
Proof.
  destruct (X2_attempts_share_the_cached_client Scenario.two_fragments Scenario.job0 initial
              eq_refl) as (bucket & _ & _ & Hn & _ & _ & Hnext).
  destruct (Hnext Variants.job_update) as (Hn' & _).
  split; [exact Hn|]. rewrite Hn'. exact Hn.
Defined.

Lemma X3_witness :
  List.filter is_listFiles
    (attempt_calls Scenario.two_fragments Variants.job_update initial)
  = [call_listFiles Scenario.client0 "p1/trace/b1/"].
Proof.
  destruct (X3_one_listing_under_the_tag_prefix Scenario.two_fragments Variants.job_update
              initial "trace" "update") as (bucket & Hb & Hcalls).
  - reflexivity.
  - discriminate.
  - intros ch Hin. simpl in Hin.
    repeat (destruct Hin as [<-|Hin]; [discriminate|]). contradiction.
  - right. reflexivity.
  - injection Hb as <-. exact Hcalls.
Defined.

Lemma X4_witness :
  fst (ingestionQueueProcessor Variants.listing_refused Scenario.job0 initial)
  = Thrown Variants.access_denied.
Proof.
  exact (proj1 (X4_refused_listing_fails_attempt Variants.listing_refused Scenario.job0
                  initial "events" "trace" Variants.access_denied
                  eq_refl eq_refl eq_refl ltac:(discriminate) eq_refl)).
Defined.

Lemma X5_witness :
  List.filter is_download (attempt_calls Variants.missing_first Scenario.job0 initial)
  = [call_download Scenario.client0 "p1/trace/b1/A";
     call_download Scenario.client0 "p1/trace/b1/Z";
     call_download Scenario.client0 "p1/trace/b1/B"].
Proof.
  erewrite (X5_every_listed_key_requested_once Variants.missing_first Scenario.job0 initial).
  2:{ vm_compute; reflexivity. }
  reflexivity.
Defined.

Lemma X6_witness :
  fst (ingestionQueueProcessor Variants.missing_first Scenario.job0 initial)
  = Thrown {| name := "NoSuchKey"; message := "The specified key does not exist." |}.
Proof.
  edestruct (X6_first_rejection_fails_attempt Variants.missing_first Scenario.job0 initial)
    with (before := @nil nat) (i := 1) (after := [0]) (key := "p1/trace/b1/Z")
    as [Hout _].
  - vm_compute; reflexivity.
  - reflexivity.
  - reflexivity.
  - reflexivity.
  - intros j key' Hj. now apply elem_of_nil in Hj.
  - exact Hout.
Defined.

Lemma X7_witness :
  fst (ingestionQueueProcessor Variants.download_stalls Scenario.job0 initial) = Pending.
Proof.
  edestruct (X7_stalled_download_blocks_attempt Variants.download_stalls Scenario.job0
               initial) with (i := 1) as [Hout _].
  - vm_compute; reflexivity.
  - simpl. lia.
  - intros Hin. apply elem_of_cons in Hin as [Hin|Hin]; [discriminate|].
    now apply elem_of_nil in Hin.
  - intros key Hin.
    apply elem_of_cons in Hin as [->|Hin]; [eexists; reflexivity|].
    apply elem_of_cons in Hin as [->|Hin]; [eexists; reflexivity|].
    now apply elem_of_nil in Hin.
  - exact Hout.
Defined.


Lemma X9_witness :
  fst (ingestionQueueProcessor Variants.without_redis Scenario.job0 initial)
  = Thrown (new_Error "Redis not available").
Proof.
  edestruct (X9_missing_store_fails_before_merge Variants.without_redis Scenario.job0
               initial) with (events := ["t1"; "t2"; "t3"]) as [Hout _].
  - vm_compute; reflexivity.
  - vm_compute; reflexivity.
  - discriminate.
  - left. reflexivity.
  - exact Hout.
Defined.

Lemma X10_witness :
  exists entityType events,
    mergeAndWrite Scenario.two_fragments entityType "p1" "b1" events = Ok tt /\
    call_mergeAndWrite entityType "p1" "b1" events
      ∈ attempt_calls Scenario.two_fragments Scenario.job0 initial.
Proof.
  destruct (X10_telemetry_only_after_merge Scenario.two_fragments Scenario.job0 initial
              (recordGauge "langfuse.queue.ingestion.length" 7 "records"))
    as (et & evs & Hin & Hok).
  - reflexivity.
  - in_calls.
  - exists et, evs. split; [exact Hok | exact Hin].
Defined.


(** Numbers in a template literal: all digits below 2^53, the shortest
    digits that give the number back above, the exponent form from 10^21. *)
Lemma number_to_string_forms :
  number_to_string 0 = "0" /\
  number_to_string 7 = "7" /\
  number_to_string (-5) = "-5" /\
  number_to_string (2 ^ 53) = "9007199254740992" /\
  number_to_string (2 ^ 69) = "590295810358705700000" /\
  number_to_string (10 ^ 21 - 1) = "1e+21" /\
  number_to_string (10 ^ 21) = "1e+21" /\
  number_to_string (2 ^ 70) = "1.1805916207174113e+21" /\
  number_to_string (10 ^ 23) = "1e+23".
Proof. repeat split; vm_compute; reflexivity. Qed.

